(** * TrackCheck: the snapshot / diff / notify pipeline of [TrackCheck.py]

    A shallow embedding of the script.  The remote library service, the
    mail transport and the wall clock are collaborators the script only
    talks to; they are kept in the world as oracles.  The two SQLite
    files are modelled by their tables, with the semantics of the three
    SQL statements the script executes written out. *)

From Stdlib Require Import Ascii.
From stdpp Require Import gmap strings list sorting pretty.

Local Open Scope Z_scope.

(** ** Text *)

Definition LF : string := String "010"%char "".
Definition CR : string := String "013"%char "".

(** Python's [sep.join(parts)]. *)
Definition join (sep : string) (parts : list string) : string :=
  String.concat sep parts.

(** Python's [needle in haystack] on [str]. *)
Fixpoint prefixb (p s : string) : bool :=
  match p, s with
  | EmptyString, _ => true
  | String a p', String b s' => if decide (a = b) then prefixb p' s' else false
  | String _ _, EmptyString => false
  end.

Fixpoint containsb (needle haystack : string) : bool :=
  prefixb needle haystack ||
  match haystack with
  | EmptyString => false
  | String _ rest => containsb needle rest
  end.

Definition contains (needle haystack : string) : Prop :=
  ∃ before after, haystack = before +:+ needle +:+ after.

(** ** Data *)

(** The dict appended to [tracks] by [get_liked_songs] (lines 111-116). *)
Module Track.
Record t := mk {
  id : string;
  name : string;
  artist : string;
  added_at : string
}.
End Track.

(** What the service answers to [current_user_saved_tracks]: the part of
    the JSON the script reads.  [api_artists] holds the ['name'] of each
    entry of [track['artists']]. *)
Record api_track := ApiTrack {
  api_id : string;
  api_name : string;
  api_artists : list string
}.

Record saved_item := SavedItem {
  item_track : api_track;
  item_added_at : string
}.

Record results := Results {
  total : Z;
  items : list saved_item
}.

Inductive response :=
| Page (r : results)
| Failed (e : string).

(** A row of [liked_songs] (lines 65-71); [track_id] is the PRIMARY KEY. *)
Record song_row := SongRow {
  track_id : string;
  track_name : string;
  artist_name : string;
  added_at : string;
  fetch_date : string
}.

Global Instance song_row_eq_dec : EqDecision song_row.
Proof. solve_decision. Defined.

(** A row of [users] (lines 49-54). *)
Module Users.
Record row := mk {
  spotify_user_id : string;
  name : string;
  email : string;
  signup_date : string
}.
End Users.

(** The [MIMEText] message built by [send_email]. *)
Record message := Message {
  Subject : string;
  From : option string;
  To : string;
  payload : string
}.

(** ** Collaborators *)

(** A collaborator answers a query and moves to its next state; its
    state is its own business. *)
Record oracle (Q A : Type) := Oracle {
  o_state : Type;
  o_cur : o_state;
  o_step : o_state → Q → A * o_state
}.
Arguments Oracle {Q A} o_state o_cur o_step.
Arguments o_state {Q A} _.
Arguments o_cur {Q A} _.
Arguments o_step {Q A} _ _ _.

Definition ask {Q A} (o : oracle Q A) (q : Q) : A * oracle Q A :=
  let '(a, s) := o_step o (o_cur o) q in
  (a, Oracle (o_state o) s (o_step o)).

(** ** The world the script runs in *)

Record world := World {
  environ : gmap string string;
  (** [liked_songs_<id>.db]: file name to the table [liked_songs] *)
  files : gmap string (list song_row);
  (** [users.db], table [users] *)
  users : list Users.row;
  stdout : list string;
  (** [sp.current_user_saved_tracks(limit, offset)] *)
  spotify : oracle (Z * Z) response;
  (** the SMTP session of [send_email]: [None] when it goes through,
      [Some e] when it raises [e] *)
  smtp : oracle message (option string);
  (** every session attempted so far, with how it ended *)
  mail_log : list (message * option string);
  (** [datetime.now().strftime("%Y-%m-%d")] *)
  clock : oracle unit string
}.

Definition set_files (f : gmap string (list song_row)) (w : world) : world :=
  World (environ w) f (users w) (stdout w) (spotify w) (smtp w) (mail_log w) (clock w).
Definition set_stdout (o : list string) (w : world) : world :=
  World (environ w) (files w) (users w) o (spotify w) (smtp w) (mail_log w) (clock w).
Definition set_spotify (s : oracle (Z * Z) response) (w : world) : world :=
  World (environ w) (files w) (users w) (stdout w) s (smtp w) (mail_log w) (clock w).
Definition set_smtp (s : oracle message (option string))
    (l : list (message * option string)) (w : world) : world :=
  World (environ w) (files w) (users w) (stdout w) (spotify w) s l (clock w).
Definition set_clock (c : oracle unit string) (w : world) : world :=
  World (environ w) (files w) (users w) (stdout w) (spotify w) (smtp w) (mail_log w) c.

(** ** Control: return, [Exception], [SystemExit], and a loop that has
    not finished within its fuel *)

Inductive outcome (A : Type) :=
| Returns (a : A) (w : world)
| Raises (e : string) (w : world)
| Exits (code : Z) (w : world)
| OutOfFuel.
Arguments Returns {A} a w.
Arguments Raises {A} e w.
Arguments Exits {A} code w.
Arguments OutOfFuel {A}.

Definition M (A : Type) : Type := world → outcome A.

Global Instance M_ret : MRet M := λ A a w, Returns a w.
Global Instance M_bind : MBind M := λ A B k m w,
  match m w with
  | Returns a w' => k a w'
  | Raises e w' => Raises e w'
  | Exits c w' => Exits c w'
  | OutOfFuel => OutOfFuel
  end.

Definition raise {A} (e : string) : M A := λ w, Raises e w.
Definition sys_exit {A} (code : Z) : M A := λ w, Exits code w.
Definition out_of_fuel {A} : M A := λ _, OutOfFuel.

(** [try: body  except Exception as e: handler(e)].  [SystemExit] is not
    an [Exception] and passes through. *)
Definition try_except {A} (body : M A) (handler : string → M A) : M A := λ w,
  match body w with
  | Raises e w' => handler e w'
  | o => o
  end.

(** [print(s, end=e)] and [print(s)]. *)
Definition print_end (s e : string) : M unit := λ w,
  Returns tt (set_stdout (stdout w ++ [s +:+ e]) w).
Definition print (s : string) : M unit := print_end s LF.

Definition getenv (k : string) : M (option string) := λ w,
  Returns (environ w !! k) w.


(** ** The store: the table [liked_songs] and the statements run on it *)

Definition DATABASE_FILE_TEMPLATE_format (spotify_user_id : string) : string :=
  "liked_songs_" +:+ spotify_user_id +:+ ".db".

(** [INSERT OR REPLACE INTO liked_songs ... VALUES (...)] (line 134): the
    row in conflict on the primary key [track_id] is deleted, the new row
    is added at the end of the table. *)
Definition insert_or_replace (r : song_row) (tb : list song_row) : list song_row :=
  filter (λ x, track_id x ≠ track_id r) tb ++ [r].

(** The parameter tuple of line 136. *)
Definition row_of (fetch_date : string) (track : Track.t) : song_row :=
  SongRow (Track.id track) (Track.name track) (Track.artist track)
          (Track.added_at track) fetch_date.

(** What the [for track in tracks] loop of [save_tracks_to_db] makes of
    the table, statement after statement. *)
Fixpoint insert_tracks (fetch_date : string) (tracks : list Track.t)
    (tb : list song_row) : list song_row :=
  match tracks with
  | [] => tb
  | track :: rest =>
      insert_tracks fetch_date rest (insert_or_replace (row_of fetch_date track) tb)
  end.

(** [ORDER BY fetch_date DESC]: the text comparison of SQLite is byte-wise. *)
Definition date_desc (x y : string) : Prop := (y ≤ x)%string.

Global Instance date_desc_dec : RelDecision date_desc.
Proof. intros x y. unfold date_desc. apply _. Defined.

(** [SELECT DISTINCT fetch_date FROM liked_songs ORDER BY fetch_date DESC
    LIMIT 2] (line 143). *)
Definition select_dates (tb : list song_row) : list string :=
  take 2 (merge_sort date_desc (remove_dups (fetch_date <$> tb))).

(** [SELECT track_name, artist_name FROM liked_songs WHERE fetch_date = ?
    AND track_id NOT IN (SELECT track_id FROM liked_songs WHERE
    fetch_date = ?)] with parameters [(dateX, dateY)] (lines 154-159 and
    163-168). *)
Definition select_exclusive (tb : list song_row) (dateX dateY : string)
    : list (string * string) :=
  (λ r, (track_name r, artist_name r)) <$>
    filter (λ r, fetch_date r = dateX ∧
                 track_id r ∉ (track_id <$> filter (λ r', fetch_date r' = dateY) tb))
           tb.

(** A statement on a connection whose file holds no table [liked_songs]
    raises [sqlite3.OperationalError]. *)
Definition with_table {A} (conn : string) (k : list song_row → M A) : M A := λ w,
  match files w !! conn with
  | Some tb => k tb w
  | None => Raises "no such table: liked_songs" w
  end.

Definition set_table (conn : string) (tb : list song_row) : M unit := λ w,
  Returns tt (set_files (<[conn := tb]> (files w)) w).

(** ** The functions of the script *)

(** [CREATE TABLE IF NOT EXISTS liked_songs (...)] (lines 64-72) on the
    file [db_file]. *)
Definition create_table_if_not_exists (db_file : string)
    (fs : gmap string (list song_row)) : gmap string (list song_row) :=
  match fs !! db_file with
  | Some _ => fs
  | None => <[db_file := []]> fs
  end.

(** [setup_user_songs_database] (lines 59-74); the connection is
    identified with the file it is opened on. *)
Definition setup_user_songs_database (spotify_user_id : string) : M string := λ w,
  let db_file := DATABASE_FILE_TEMPLATE_format spotify_user_id in
  Returns db_file (set_files (create_table_if_not_exists db_file (files w)) w).

(** The [with smtplib.SMTP(...)] block of lines 84-87. *)
Definition smtp_session (msg : message) : M unit := λ w,
  let '(r, s) := ask (smtp w) msg in
  let w' := set_smtp s (mail_log w ++ [(msg, r)]) w in
  match r with
  | None => Returns tt w'
  | Some e => Raises e w'
  end.

(** [send_email] (lines 76-91). *)
Definition send_email (to_email subject content : string) : M unit :=
  try_except
    (SENDER_EMAIL ← getenv "SENDER_EMAIL";
     let msg := Message subject SENDER_EMAIL to_email content in
     smtp_session msg;;
     print ("Email sent to " +:+ to_email))
    (λ e, print ("Error sending email to " +:+ to_email +:+ ": " +:+ e)).

(** [sp.current_user_saved_tracks(limit=..., offset=...)]. *)
Definition current_user_saved_tracks (limit offset : Z) : M results := λ w,
  let '(r, s) := ask (spotify w) (limit, offset) in
  match r with
  | Page res => Returns res (set_spotify s w)
  | Failed e => Raises e (set_spotify s w)
  end.

(** The dict of lines 111-116; [track['artists'][0]] raises [IndexError]
    on a track without artists. *)
Definition track_of_item (item : saved_item) : option Track.t :=
  match api_artists (item_track item) with
  | [] => None
  | first :: _ =>
      Some (Track.mk (api_id (item_track item)) (api_name (item_track item))
                     first (item_added_at item))
  end.

(** The [for item in results['items']] loop of lines 109-116. *)
Fixpoint append_items (tracks : list Track.t) (its : list saved_item)
    : M (list Track.t) :=
  match its with
  | [] => mret tracks
  | item :: rest =>
      match track_of_item item with
      | Some track => append_items (tracks ++ [track]) rest
      | None => raise "list index out of range"
      end
  end.

(** The [while True] loop of lines 100-119; one unit of fuel per page
    request. *)
Fixpoint fetch_loop (fuel : nat) (tracks : list Track.t) (offset : Z)
    (total_seen : option Z) : M (list Track.t) :=
  match fuel with
  | O => out_of_fuel
  | S fuel' =>
      res ← current_user_saved_tracks 50 offset;
      total' ← match total_seen with
               | None =>
                   print ("Found " +:+ pretty (total res) +:+ " tracks to process");;
                   mret (total res)
               | Some t => mret t
               end;
      match items res with
      | [] => mret tracks
      | _ :: _ =>
          tracks' ← append_items tracks (items res);
          let offset' := offset + 50 in
          print_end ("Progress: " +:+ pretty (Z.min offset' total') +:+ "/" +:+
                     pretty total' +:+ " tracks") CR;;
          fetch_loop fuel' tracks' offset' (Some total')
      end
  end.

(** [get_liked_songs] (lines 93-126). *)
Definition get_liked_songs (fuel : nat) : M (list Track.t) :=
  try_except
    (tracks ← fetch_loop fuel [] 0 None;
     print (LF +:+ "Done fetching tracks");;
     mret tracks)
    (λ e, print (LF +:+ "Error fetching tracks: " +:+ e);; sys_exit 1).

(** The [for track in tracks] loop of lines 132-136, one statement per
    track on the connection. *)
Fixpoint execute_inserts (conn fetch_date : string) (tracks : list Track.t) : M unit :=
  match tracks with
  | [] => mret ()
  | track :: rest =>
      with_table conn (λ tb,
        set_table conn (insert_or_replace (row_of fetch_date track) tb));;
      execute_inserts conn fetch_date rest
  end.

(** [save_tracks_to_db] (lines 128-138). *)
Definition save_tracks_to_db (conn : string) (tracks : list Track.t) : M unit := λ w,
  let '(fetch_date, c) := ask (clock w) () in
  (execute_inserts conn fetch_date tracks;;
   print ("Tracks saved to database on " +:+ fetch_date)) (set_clock c w).

(** Lines 172-181: the body of the mail. *)
Definition email_content (removed_tracks added_tracks : list (string * string)) : string :=
  let content := "Hi," +:+ LF +:+ LF +:+
                 "Here are the changes to your Spotify Liked Songs:" +:+ LF +:+ LF in
  let content :=
    match removed_tracks with
    | _ :: _ =>
        content +:+ ("Removed Tracks:" +:+ LF +:+
          join LF ((λ t, "- " +:+ t.1 +:+ " by " +:+ t.2) <$> removed_tracks) +:+ LF)
    | [] => content +:+ ("No tracks have been removed." +:+ LF)
    end in
  match added_tracks with
  | _ :: _ =>
      content +:+ (LF +:+ "Added Tracks:" +:+ LF +:+
        join LF ((λ t, "+ " +:+ t.1 +:+ " by " +:+ t.2) <$> added_tracks) +:+ LF)
  | [] => content +:+ (LF +:+ "No tracks have been added." +:+ LF)
  end.

(** [compare_tracks] (lines 140-184). *)
Definition compare_tracks (conn email : string) : M unit :=
  with_table conn (λ tb,
    match select_dates tb with
    | [latest_date; previous_date] =>
        print ("Comparing " +:+ latest_date +:+ " with " +:+ previous_date);;
        let removed_tracks := select_exclusive tb previous_date latest_date in
        let added_tracks := select_exclusive tb latest_date previous_date in
        let content := email_content removed_tracks added_tracks in
        send_email email "Spotify Liked Songs Updates" content
    | _ => print "Not enough data to compare."
    end).

(** The body of the [for user_id, email in users] loop (lines 198-208). *)
Definition process_user (fuel : nat) (user : string * string) : M unit :=
  let '(user_id, email) := user in
  print ("Processing user " +:+ user_id +:+ "...");;
  user_conn ← setup_user_songs_database user_id;
  print (LF +:+ "Fetching current liked songs...");;
  current_tracks ← get_liked_songs fuel;
  save_tracks_to_db user_conn current_tracks;;
  compare_tracks user_conn email.

Fixpoint for_users (fuel : nat) (us : list (string * string)) : M unit :=
  match us with
  | [] => mret ()
  | user :: rest => process_user fuel user;; for_users fuel rest
  end.

(** [SELECT spotify_user_id, email FROM users] (line 193), row by row. *)
Definition user_entry (u : Users.row) : string * string :=
  (Users.spotify_user_id u, Users.email u).

(** [main] (lines 186-210); the Spotify client [sp] is the one of the
    world. *)
Definition main (fuel : nat) : M unit := λ w,
  for_users fuel (user_entry <$> users w) w.


(** ** Vocabulary of the properties *)

(** What the schema declares: no two rows with the same [track_id]. *)
Definition primary_key (tb : list song_row) : Prop :=
  NoDup (track_id <$> tb).

(** The key the snapshots are thought of as having. *)
Definition date_and_id (r : song_row) : string * string :=
  (fetch_date r, track_id r).

(** The tables a user's file can hold: created empty, then only saved to. *)
Inductive reachable : list song_row → Prop :=
| reachable_created : reachable []
| reachable_saved fetch_date tracks tb :
    reachable tb → reachable (insert_tracks fetch_date tracks tb).

(** The rows a save leaves for its own tracks: one per id, the values of
    the last track with that id, in the order of those last tracks. *)
Fixpoint last_rows (fetch_date : string) (tracks : list Track.t) : list song_row :=
  match tracks with
  | [] => []
  | track :: rest =>
      (if decide (Track.id track ∈ Track.id <$> rest) then []
       else [row_of fetch_date track]) ++ last_rows fetch_date rest
  end.

(** The answer to the [k]-th page request, counting from 0, of a fetch
    whose next request is at [offset]; requests are 50 apart. *)
Fixpoint page_from (sp : oracle (Z * Z) response) (offset : Z) (k : nat) : response :=
  match k with
  | O => (ask sp (50, offset)).1
  | S k' => page_from (ask sp (50, offset)).2 (offset + 50) k'
  end.

Definition page_at (sp : oracle (Z * Z) response) (k : nat) : response :=
  page_from sp 0 k.

(** A page the loop goes through: it has items and each has an artist;
    [ts] are the dicts the loop appends for it. *)
Definition full_page (r : response) (ts : list Track.t) : Prop :=
  ∃ res, r = Page res ∧ items res ≠ [] ∧ mapM track_of_item (items res) = Some ts.

Definition empty_page (r : response) : Prop :=
  ∃ n, r = Page (Results n []).

(** [w'] is [w] but for what was printed and for the state of the
    remote service. *)
Definition fetched_only (w w' : world) : Prop :=
  environ w' = environ w ∧ files w' = files w ∧ users w' = users w ∧
  smtp w' = smtp w ∧ mail_log w' = mail_log w ∧ clock w' = clock w.

(** Two worlds that differ at most in the mail transport, in what was
    handed to it, and in what was printed. *)
Definition same_but_mail (w1 w2 : world) : Prop :=
  environ w1 = environ w2 ∧ files w1 = files w2 ∧ users w1 = users w2 ∧
  spotify w1 = spotify w2 ∧ clock w1 = clock w2.

Definition same_outcome {A} (o1 o2 : outcome A) : Prop :=
  match o1, o2 with
  | Returns a1 w1, Returns a2 w2 => a1 = a2 ∧ same_but_mail w1 w2
  | Raises e1 w1, Raises e2 w2 => e1 = e2 ∧ same_but_mail w1 w2
  | Exits c1 w1, Exits c2 w2 => c1 = c2 ∧ same_but_mail w1 w2
  | OutOfFuel, OutOfFuel => True
  | _, _ => False
  end.

(** A computation on which the mail transport has no influence. *)
Definition mail_blind {A} (m : M A) : Prop :=
  ∀ w1 w2, same_but_mail w1 w2 → same_outcome (m w1) (m w2).

(** What [send_email] prints once the session is over (lines 89, 91). *)
Definition send_line (to_email : string) (r : option string) : string :=
  match r with
  | None => "Email sent to " +:+ to_email
  | Some e => "Error sending email to " +:+ to_email +:+ ": " +:+ e
  end +:+ LF.

(** A text given line by line, each line closed by a line feed. *)
Definition unlines (ls : list string) : string :=
  foldr (λ l rest, l +:+ LF +:+ rest) "" ls.

(** A track as the report lists it, under the sign of its section. *)
Definition track_line (sign : string) (t : string * string) : string :=
  sign +:+ " " +:+ t.1 +:+ " by " +:+ t.2.

(** One section of the report as the specification words it: its title
    and a line per track, or the sentence that stands for an empty one. *)
Definition section_lines (title nothing sign : string)
    (tracks : list (string * string)) : list string :=
  match tracks with
  | [] => [nothing]
  | _ :: _ => title :: (track_line sign <$> tracks)
  end.

(** The whole report, line by line: the greeting, the removed section, an
    empty line, the added section. *)
Definition report_lines (removed added : list (string * string)) : list string :=
  ["Hi,"; ""; "Here are the changes to your Spotify Liked Songs:"; ""] ++
  section_lines "Removed Tracks:" "No tracks have been removed." "-" removed ++
  [""] ++
  section_lines "Added Tracks:" "No tracks have been added." "+" added.

(** The fixed opening of the mail body (line 172). *)
Definition GREETING : string :=
  "Hi," +:+ LF +:+ LF +:+ "Here are the changes to your Spotify Liked Songs:" +:+ LF +:+ LF.

Definition SUBJECT : string := "Spotify Liked Songs Updates".

(** ** Sample data *)

Module Sample.
Definition d1 : string := "2024-01-01".
Definition d2 : string := "2024-01-02".

Definition tA := Track.mk "A" "Alpha" "Ann" "2023-12-01T10:00:00Z".
Definition tB := Track.mk "B" "Beta" "Bob" "2023-12-02T10:00:00Z".
Definition tC := Track.mk "C" "Gamma" "Cy" "2023-12-03T10:00:00Z".
Definition tD := Track.mk "D" "Delta" "Di" "2024-01-02T08:00:00Z".

(** The table after a first day with A, B, C and a second with B, C, D. *)
Definition day1 : list song_row := insert_tracks d1 [tA; tB; tC] [].
Definition day2 : list song_row := insert_tracks d2 [tB; tC; tD] day1.

(** Collaborators that play back a script. *)
Definition scripted {Q A} (dflt : A) (answers : list A) : oracle Q A :=
  Oracle (list A) answers
         (λ s _, match s with [] => (dflt, []) | a :: s' => (a, s') end).

Definition always {Q A} (a : A) : oracle Q A :=
  Oracle unit () (λ s _, (a, s)).

Definition alice := Users.mk "alice" "Alice" "alice@example.org" "2023-11-30".
Definition bob := Users.mk "bob" "Bob" "bob@example.org" "2023-11-30".

Definition base (tables : gmap string (list song_row))
    (sp : oracle (Z * Z) response) (mail : oracle message (option string)) : world :=
  World ∅ tables [alice; bob] [] sp mail [] (always d2).

Definition alice_db : string := DATABASE_FILE_TEMPLATE_format "alice".

(** Alice's file after the two days, a service with nothing to say and
    a transport that delivers. *)
Definition second_day : world :=
  base {[alice_db := day2]} (always (Page (Results 0 []))) (always None).

(** Alice's file after her first day only. *)
Definition first_day : world :=
  base {[alice_db := day1]} (always (Page (Results 0 []))) (always None).

(** Fifty distinct liked tracks, as the service lists them and as the
    fetch returns them. *)
Definition fifty : list saved_item :=
  (λ i : nat, SavedItem (ApiTrack (pretty i) ("Song " +:+ pretty i) ["Band"])
                        "2024-01-01T00:00:00Z")
    <$> seq 0 50.

Definition fifty_tracks : list Track.t :=
  (λ i : nat, Track.mk (pretty i) ("Song " +:+ pretty i) "Band" "2024-01-01T00:00:00Z")
    <$> seq 0 50.

(** A service that announces 120 tracks, lists fifty, then an empty page. *)
Definition drifting : world :=
  base ∅ (scripted (Failed "no more answers")
                   [Page (Results 120 fifty); Page (Results 120 [])])
       (always None).

(** A service that lists fifty tracks, then fails. *)
Definition failing : world :=
  base ∅ (scripted (Failed "no more answers")
                   [Page (Results 120 fifty); Failed "HTTP 503"])
       (always None).

(** A transport that refuses every session. *)
Definition undelivered : world :=
  base {[alice_db := day2]} (always (Page (Results 0 []))) (always (Some "connection refused")).
End Sample.

(** ** Vocabulary of the properties of whole runs *)

(** [P] holds of the world a computation ends in, however it ends. *)
Definition ends_in {A} (P : world → Prop) (o : outcome A) : Prop :=
  match o with
  | Returns _ w | Raises _ w | Exits _ w => P w
  | OutOfFuel => True
  end.

(** A computation that takes every world to a world related to it by [R]. *)
Definition keeps {A} (R : world → world → Prop) (m : M A) : Prop :=
  ∀ w, ends_in (R w) (m w).

(** What may happen to the table of one file: it may be created, with
    its primary key in order; once there it stays, loses no track id and
    keeps its primary key. *)
Definition table_step (o o' : option (list song_row)) : Prop :=
  match o, o' with
  | Some tb, Some tb' =>
      track_id <$> tb ⊆ track_id <$> tb' ∧ (primary_key tb → primary_key tb')
  | None, Some tb' => primary_key tb'
  | None, None => True
  | Some _, None => False
  end.

(** What the turn of the user of file [db] may do: nothing to the
    environment or the registry, nothing to any other file. *)
Definition user_step (db : string) (w w' : world) : Prop :=
  environ w' = environ w ∧ users w' = users w ∧
  (∀ f, f ≠ db → files w' !! f = files w !! f) ∧
  table_step (files w !! db) (files w' !! db).

Definition run_step (w w' : world) : Prop :=
  environ w' = environ w ∧ users w' = users w ∧
  ∀ f, table_step (files w !! f) (files w' !! f).

(** The same, with the mail transport left alone as well. *)
Definition quiet_step (db : string) (w w' : world) : Prop :=
  user_step db w w' ∧ mail_log w' = mail_log w ∧ smtp w' = smtp w.

(** At most [n] sessions with the transport, each for a message in [P]. *)
Definition mail_step (n : nat) (P : message → Prop) (w w' : world) : Prop :=
  ∃ new, mail_log w' = mail_log w ++ new ∧ (length new ≤ n)%nat ∧
         Forall (λ s, P s.1) new.







Module Cases.
(** A service that has fifty more tracks to list whatever it is asked, and
    says there are fifty in all. *)
Definition endless : world :=
  Sample.base ∅ (Sample.always (Page (Results 50 Sample.fifty))) (Sample.always None).

(** A service whose second page holds a track without artists. *)
Definition artless : world :=
  Sample.base ∅
    (Sample.scripted (Failed "no more answers")
       [Page (Results 51 Sample.fifty);
        Page (Results 51 [SavedItem (ApiTrack "x" "Untitled" []) "2024-01-01T00:00:00Z"])])
    (Sample.always None).

End Cases.

(** * Properties *)

(** ** The table under [INSERT OR REPLACE] *)

Section Store.
Implicit Types (tb : list song_row) (r : song_row) (d : string)
               (ts : list Track.t) (t : Track.t).

Lemma filter_keeps_all {A} (P : A → Prop) `{!∀ x, Decision (P x)} (l : list A) :
  (∀ x, x ∈ l → P x) → filter P l = l.
Proof.
  induction l as [|x l IH]; intros HP; [done|].
  rewrite filter_cons_True by (apply HP; left).
  f_equal. apply IH. intros y Hy. apply HP. by right.
Qed.

Lemma filter_drops_all {A} (P : A → Prop) `{!∀ x, Decision (P x)} (l : list A) :
  (∀ x, x ∈ l → ¬ P x) → filter P l = [].
Proof.
  induction l as [|x l IH]; intros HP; [done|].
  rewrite filter_cons_False by (apply HP; left).
  apply IH. intros y Hy. apply HP. by right.
Qed.

Lemma filter_iff_elem {A} (P Q : A → Prop)
    `{!∀ x, Decision (P x), !∀ x, Decision (Q x)} (l : list A) :
  (∀ x, x ∈ l → P x ↔ Q x) → filter P l = filter Q l.
Proof.
  induction l as [|x l IH]; intros HPQ; [done|].
  assert (filter P l = filter Q l) as Hl
    by (apply IH; intros y Hy; apply HPQ; by right).
  destruct (decide (P x)) as [HP|HP].
  - rewrite !filter_cons_True; [by f_equal| |done]. apply HPQ; [left|done].
  - rewrite !filter_cons_False; [done| |done]. intros HQ. apply HP, HPQ; [left|done].
Qed.

Lemma elem_of_insert_or_replace r r' tb :
  r' ∈ insert_or_replace r tb ↔ r' = r ∨ (r' ∈ tb ∧ track_id r' ≠ track_id r).
Proof.
  unfold insert_or_replace.
  rewrite elem_of_app, list_elem_of_filter, list_elem_of_singleton. tauto.
Qed.

Lemma primary_key_insert_or_replace r tb :
  primary_key tb → primary_key (insert_or_replace r tb).
Proof.
  unfold primary_key, insert_or_replace. intros Hpk.
  rewrite fmap_app. apply NoDup_app. split; [|split].
  - eapply sublist_NoDup; [exact Hpk|].
    apply fmap_sublist, sublist_filter.
  - intros i Hi Hr. apply list_elem_of_fmap in Hi as (x & -> & Hx).
    apply list_elem_of_filter in Hx as [Hne _].
    apply list_elem_of_singleton in Hr. done.
  - apply NoDup_singleton.
Qed.

Lemma primary_key_insert_tracks d ts tb :
  primary_key tb → primary_key (insert_tracks d ts tb).
Proof.
  revert tb. induction ts as [|t ts IH]; intros tb Hpk; simpl; [done|].
  apply IH, primary_key_insert_or_replace, Hpk.
Qed.

Lemma reachable_primary_key tb : reachable tb → primary_key tb.
Proof.
  induction 1 as [|d ts tb _ IH].
  - apply NoDup_nil_2.
  - by apply primary_key_insert_tracks.
Qed.

Lemma last_rows_ids d ts i :
  i ∈ track_id <$> last_rows d ts ↔ i ∈ Track.id <$> ts.
Proof.
  induction ts as [|t ts IH]; simpl; [done|].
  rewrite fmap_app, elem_of_app, IH, elem_of_cons.
  case_decide as Hin; simpl.
  - rewrite elem_of_nil. split; [tauto|]. intros [->|?]; tauto.
  - rewrite list_elem_of_singleton. tauto.
Qed.

Lemma last_rows_date d ts r : r ∈ last_rows d ts → fetch_date r = d.
Proof.
  induction ts as [|t ts IH]; simpl; [by rewrite elem_of_nil|].
  rewrite elem_of_app. intros [Hr|Hr]; [|by apply IH].
  case_decide; [by apply elem_of_nil in Hr|].
  by apply list_elem_of_singleton in Hr as ->.
Qed.

Lemma last_rows_primary_key d ts : primary_key (last_rows d ts).
Proof.
  unfold primary_key. induction ts as [|t ts IH]; simpl; [apply NoDup_nil_2|].
  case_decide as Hin; simpl; [done|].
  apply NoDup_cons. split; [|done].
  by rewrite last_rows_ids.
Qed.

(** What a save leaves: the rows of other tracks, untouched and in
    place, followed by one row per saved id. *)
Lemma insert_tracks_last_rows d ts tb :
  insert_tracks d ts tb =
  filter (λ r, track_id r ∉ Track.id <$> ts) tb ++ last_rows d ts.
Proof.
  revert tb. induction ts as [|t ts IH]; intros tb; simpl.
  - rewrite app_nil_r. symmetry. apply filter_keeps_all.
    intros r _. apply not_elem_of_nil.
  - rewrite IH. unfold insert_or_replace.
    rewrite filter_app, list_filter_filter, <-app_assoc. f_equal.
    + apply list_filter_iff. intros r. simpl.
      rewrite not_elem_of_cons. tauto.
    + f_equal. case_decide as Hin.
      * apply filter_singleton_False; [exact []|]. simpl. tauto.
      * by apply filter_singleton_True; [exact []|].
Qed.

Lemma insert_tracks_idempotent d ts tb :
  insert_tracks d ts (insert_tracks d ts tb) = insert_tracks d ts tb.
Proof.
  rewrite !insert_tracks_last_rows.
  rewrite filter_app, list_filter_filter. f_equal.
  - rewrite (list_filter_iff _ (λ r, track_id r ∉ Track.id <$> ts)); [|tauto].
    enough (filter (λ r, track_id r ∉ Track.id <$> ts) (last_rows d ts) = []) as ->
      by apply app_nil_r.
    apply filter_drops_all. intros r Hr Hnot. apply Hnot.
    apply last_rows_ids with (d := d). by apply list_elem_of_fmap_2.
Qed.
End Store.

Section StoreClaims.
Implicit Types (tb : list song_row) (r : song_row) (d : string)
               (ts : list Track.t) (t : Track.t).

Lemma NoDup_fmap_eq {A B} (f : A → B) (l : list A) x y :
  NoDup (f <$> l) → x ∈ l → y ∈ l → f x = f y → x = y.
Proof.
  induction l as [|a l IH]; simpl; [by rewrite elem_of_nil|].
  rewrite NoDup_cons, !elem_of_cons. intros [Ha Hl] [->|Hx] [->|Hy] Hf; auto.
  - exfalso. apply Ha. rewrite Hf. by apply list_elem_of_fmap_2.
  - exfalso. apply Ha. rewrite <-Hf. by apply list_elem_of_fmap_2.
Qed.

Lemma saved_row_exists d ts tb t :
  t ∈ ts →
  ∃ r, r ∈ insert_tracks d ts tb ∧ track_id r = Track.id t ∧ fetch_date r = d.
Proof.
  intros Ht.
  assert (Track.id t ∈ track_id <$> last_rows d ts) as Hin
    by (apply last_rows_ids; by apply list_elem_of_fmap_2).
  apply list_elem_of_fmap in Hin as (r & Hid & Hr).
  exists r. rewrite insert_tracks_last_rows, elem_of_app.
  split; [by right|]. split; [done|]. by eapply last_rows_date.
Qed.

Lemma saved_row_date d ts tb r :
  r ∈ insert_tracks d ts tb → track_id r ∈ Track.id <$> ts → fetch_date r = d.
Proof.
  rewrite insert_tracks_last_rows, elem_of_app, list_elem_of_filter.
  intros [[Hnot _]|Hr] Hin; [done|]. by eapply last_rows_date.
Qed.

Lemma date_and_id_insert_or_replace r tb :
  NoDup (date_and_id <$> tb) → NoDup (date_and_id <$> insert_or_replace r tb).
Proof.
  unfold insert_or_replace. intros Hk.
  rewrite fmap_app. apply NoDup_app. split; [|split].
  - eapply sublist_NoDup; [exact Hk|]. apply fmap_sublist, sublist_filter.
  - intros k Hk1 Hk2. apply list_elem_of_fmap in Hk1 as (x & -> & Hx).
    apply list_elem_of_filter in Hx as [Hne _].
    apply list_elem_of_singleton in Hk2. unfold date_and_id in Hk2.
    by injection Hk2.
  - apply NoDup_singleton.
Qed.

Lemma date_and_id_insert_tracks d ts tb :
  NoDup (date_and_id <$> tb) → NoDup (date_and_id <$> insert_tracks d ts tb).
Proof.
  revert tb. induction ts as [|t ts IH]; intros tb Hk; simpl; [done|].
  apply IH, date_and_id_insert_or_replace, Hk.
Qed.

(** C2.  The table is keyed on [track_id] alone: a save leaves at most
    one row per [track_id] whatever the dates, every row of a saved
    track carries the date of this save, and two rows with the same
    [track_id] are the same row, so one [fetch_date] per track remains. *)
Theorem one_row_per_track_id d ts tb (Hpk : primary_key tb) :
  primary_key (insert_tracks d ts tb) ∧
  (∀ r, r ∈ insert_tracks d ts tb → track_id r ∈ Track.id <$> ts → fetch_date r = d) ∧
  (∀ t, t ∈ ts → ∃ r, r ∈ insert_tracks d ts tb ∧ track_id r = Track.id t) ∧
  (∀ r1 r2, r1 ∈ insert_tracks d ts tb → r2 ∈ insert_tracks d ts tb →
            track_id r1 = track_id r2 → r1 = r2).
Proof.
  pose proof (primary_key_insert_tracks d ts tb Hpk) as Hpk'.
  split; [exact Hpk'|]. split; [|split].
  - intros r. apply saved_row_date.
  - intros t Ht. destruct (saved_row_exists d ts tb t Ht) as (r & Hr & Hid & _).
    by exists r.
  - intros r1 r2. by apply NoDup_fmap_eq.
Qed.

Lemma one_row_per_track_id_witness :
  primary_key Sample.day1 ∧
  (primary_key Sample.day2 ∧
   (∀ r, r ∈ Sample.day2 →
         track_id r ∈ Track.id <$> [Sample.tB; Sample.tC; Sample.tD] →
         fetch_date r = Sample.d2) ∧
   (∀ t, t ∈ [Sample.tB; Sample.tC; Sample.tD] →
         ∃ r, r ∈ Sample.day2 ∧ track_id r = Track.id t) ∧
   (∀ r1 r2, r1 ∈ Sample.day2 → r2 ∈ Sample.day2 →
             track_id r1 = track_id r2 → r1 = r2)).
Proof.
  assert (primary_key Sample.day1) as Hpk
    by (refine (bool_decide_unpack _ _); vm_compute; exact I).
  split; [exact Hpk|].
  exact (one_row_per_track_id Sample.d2 [Sample.tB; Sample.tC; Sample.tD] Sample.day1 Hpk).
Defined.

(** C7.  A save keeps one row per (fetch_date, track_id): no two rows
    share that pair afterwards, each saved track has its row under the
    date of the save, and a single upsert leaves the new row as the only
    one with its pair, in place of any row that had it. *)
Theorem one_row_per_date_and_id d ts tb (Hk : NoDup (date_and_id <$> tb)) :
  NoDup (date_and_id <$> insert_tracks d ts tb) ∧
  (∀ t, t ∈ ts → ∃ r, r ∈ insert_tracks d ts tb ∧ date_and_id r = (d, Track.id t)) ∧
  (∀ r, NoDup (date_and_id <$> insert_or_replace r tb) ∧
        r ∈ insert_or_replace r tb ∧
        ∀ r', r' ∈ insert_or_replace r tb → date_and_id r' = date_and_id r → r' = r).
Proof.
  split; [by apply date_and_id_insert_tracks|]. split.
  - intros t Ht. destruct (saved_row_exists d ts tb t Ht) as (r & Hr & Hid & Hd).
    exists r. split; [done|]. unfold date_and_id. by rewrite Hid, Hd.
  - intros r. split; [by apply date_and_id_insert_or_replace|]. split.
    + apply elem_of_insert_or_replace. by left.
    + intros r' Hr' Hkey. apply elem_of_insert_or_replace in Hr' as [->|[_ Hne]]; [done|].
      unfold date_and_id in Hkey. by injection Hkey.
Qed.

Lemma one_row_per_date_and_id_witness :
  NoDup (date_and_id <$> Sample.day1) ∧
  (NoDup (date_and_id <$> Sample.day2) ∧
   (∀ t, t ∈ [Sample.tB; Sample.tC; Sample.tD] →
         ∃ r, r ∈ Sample.day2 ∧ date_and_id r = (Sample.d2, Track.id t)) ∧
   (∀ r, NoDup (date_and_id <$> insert_or_replace r Sample.day1) ∧
         r ∈ insert_or_replace r Sample.day1 ∧
         ∀ r', r' ∈ insert_or_replace r Sample.day1 →
               date_and_id r' = date_and_id r → r' = r)).
Proof.
  assert (NoDup (date_and_id <$> Sample.day1)) as Hk
    by (refine (bool_decide_unpack _ _); vm_compute; exact I).
  split; [exact Hk|].
  exact (one_row_per_date_and_id Sample.d2 [Sample.tB; Sample.tC; Sample.tD] Sample.day1 Hk).
Defined.
End StoreClaims.

(** ** The two queries of [compare_tracks] *)

Section Queries.
Implicit Types (tb : list song_row) (r : song_row) (d : string).

Global Instance date_desc_total : Total date_desc.
Proof. intros x y. unfold date_desc. destruct (base.total String.le x y); auto. Qed.

Lemma sorted_dates_elem tb d :
  d ∈ merge_sort date_desc (remove_dups (fetch_date <$> tb)) ↔ d ∈ fetch_date <$> tb.
Proof. by rewrite merge_sort_Permutation, elem_of_remove_dups. Qed.

Lemma sorted_dates_NoDup tb :
  NoDup (merge_sort date_desc (remove_dups (fetch_date <$> tb))).
Proof. rewrite merge_sort_Permutation. apply NoDup_remove_dups. Qed.

Lemma select_dates_elem tb d : d ∈ select_dates tb → d ∈ fetch_date <$> tb.
Proof.
  unfold select_dates. intros Hd. apply sorted_dates_elem.
  eapply elem_of_sublist; [exact Hd|]. apply sublist_take.
Qed.

Lemma select_dates_NoDup tb : NoDup (select_dates tb).
Proof.
  unfold select_dates. eapply sublist_NoDup; [apply sorted_dates_NoDup|].
  apply sublist_take.
Qed.

(** With one date at most in the table the query has fewer than two rows. *)
Lemma select_dates_short tb :
  (∀ r1 r2, r1 ∈ tb → r2 ∈ tb → fetch_date r1 = fetch_date r2) →
  ∀ latest previous, select_dates tb ≠ [latest; previous].
Proof.
  intros Hone latest previous Heq.
  pose proof (select_dates_NoDup tb) as Hnd. rewrite Heq in Hnd.
  assert (latest ∈ fetch_date <$> tb) as H1
    by (apply select_dates_elem; rewrite Heq; left).
  assert (previous ∈ fetch_date <$> tb) as H2
    by (apply select_dates_elem; rewrite Heq; right; left).
  apply list_elem_of_fmap in H1 as (r1 & -> & Hr1).
  apply list_elem_of_fmap in H2 as (r2 & -> & Hr2).
  apply NoDup_cons in Hnd as [Hne _]. apply Hne.
  rewrite (Hone r1 r2 Hr1 Hr2). left.
Qed.

(** With two dates in the table the query has its two rows, the later
    date first. *)
Lemma select_dates_two tb r1 r2 :
  r1 ∈ tb → r2 ∈ tb → fetch_date r1 ≠ fetch_date r2 →
  ∃ latest previous,
    select_dates tb = [latest; previous] ∧ latest ≠ previous ∧
    (previous ≤ latest)%string ∧
    latest ∈ fetch_date <$> tb ∧ previous ∈ fetch_date <$> tb.
Proof.
  intros Hr1 Hr2 Hne. unfold select_dates.
  set (sorted := merge_sort date_desc (remove_dups (fetch_date <$> tb))).
  assert ([fetch_date r1; fetch_date r2] ⊆+ sorted) as Hsub.
  { apply NoDup_submseteq.
    - apply NoDup_cons. split; [by rewrite list_elem_of_singleton|apply NoDup_singleton].
    - intros d Hd. apply sorted_dates_elem.
      apply elem_of_cons in Hd as [->|Hd]; [by apply list_elem_of_fmap_2|].
      apply list_elem_of_singleton in Hd as ->. by apply list_elem_of_fmap_2. }
  apply submseteq_length in Hsub. simpl in Hsub.
  pose proof (sorted_dates_NoDup tb) as Hnd.
  pose proof (Sorted_merge_sort date_desc (remove_dups (fetch_date <$> tb))) as Hsorted.
  pose proof (sorted_dates_elem tb) as Helem.
  fold sorted in Hnd, Hsorted, Helem.
  destruct sorted as [|latest [|previous rest]]; simpl in Hsub; [lia..|].
  exists latest, previous. simpl. split; [done|].
  apply NoDup_cons in Hnd as [Hnot _].
  split; [intros ->; apply Hnot; left|]. split.
  - apply Sorted_inv in Hsorted as [_ Hhd]. by apply HdRel_inv in Hhd.
  - split; apply Helem; [left|right; left].
Qed.

(** Under the primary key a row's id is under no other date, so the
    [NOT IN] filter of the diff queries never removes a row. *)
Lemma select_exclusive_primary_key tb dateX dateY :
  primary_key tb → dateX ≠ dateY →
  select_exclusive tb dateX dateY =
  (λ r, (track_name r, artist_name r)) <$> filter (λ r, fetch_date r = dateX) tb.
Proof.
  intros Hpk Hne. unfold select_exclusive. f_equal.
  apply filter_iff_elem. intros r Hr. split; [tauto|].
  intros Hd. split; [done|]. intros Hin.
  apply list_elem_of_fmap in Hin as (r' & Hid & Hr').
  apply list_elem_of_filter in Hr' as [Hd' Hr'].
  assert (r = r') as <- by (eapply NoDup_fmap_eq; eauto).
  congruence.
Qed.

(** So on any table the script can have built, the two lists of the diff
    are the whole of the previous date and the whole of the latest date,
    and neither is empty. *)
Lemma diff_lists_whole_dates tb latest previous :
  reachable tb → select_dates tb = [latest; previous] →
  select_exclusive tb previous latest =
    (λ r, (track_name r, artist_name r)) <$> filter (λ r, fetch_date r = previous) tb ∧
  select_exclusive tb latest previous =
    (λ r, (track_name r, artist_name r)) <$> filter (λ r, fetch_date r = latest) tb ∧
  select_exclusive tb previous latest ≠ [] ∧
  select_exclusive tb latest previous ≠ [].
Proof.
  intros Hpk%reachable_primary_key Hd.
  pose proof (select_dates_NoDup tb) as Hnd. rewrite Hd in Hnd.
  apply NoDup_cons in Hnd as [Hne%not_elem_of_cons _]. destruct Hne as [Hne _].
  assert (∀ d, d ∈ select_dates tb →
               (λ r, (track_name r, artist_name r)) <$> filter (λ r, fetch_date r = d) tb ≠ [])
    as Hsome.
  { intros d Hin%select_dates_elem.
    apply list_elem_of_fmap in Hin as (r & -> & Hr).
    intros Hnil%fmap_nil_inv.
    by apply (filter_nil_not_elem_of _ _ r Hnil). }
  rewrite !select_exclusive_primary_key by done.
  split; [done|]. split; [done|].
  split; apply Hsome; rewrite Hd; [right; left|left].
Qed.
End Queries.

(** ** Text *)

Section Text.
Implicit Types (s t u : string).

Lemma app_cons a s t : String a s +:+ t = String a (s +:+ t).
Proof. reflexivity. Qed.

Lemma app_empty_l s : "" +:+ s = s.
Proof. reflexivity. Qed.

Lemma string_app_assoc s t u : (s +:+ t) +:+ u = s +:+ (t +:+ u).
Proof. induction s as [|a s IH]; [done|]. rewrite !app_cons. by f_equal. Qed.

Lemma unlines_app (l1 l2 : list string) :
  unlines (l1 ++ l2) = unlines l1 +:+ unlines l2.
Proof.
  induction l1 as [|x l1 IH]; simpl; [done|].
  by rewrite IH, !string_app_assoc.
Qed.

(** [LF.join(ls) + LF] puts a line feed after every line. *)
Lemma join_unlines (ls : list string) :
  ls ≠ [] → join LF ls +:+ LF = unlines ls.
Proof.
  induction ls as [|x [|y ls] IH]; intros Hne; [done|done|].
  change (join LF (x :: y :: ls)) with (x +:+ LF +:+ join LF (y :: ls)).
  rewrite !string_app_assoc, IH by done. done.
Qed.

Lemma prefixb_app s t : prefixb s (s +:+ t) = true.
Proof.
  induction s as [|a s IH]; [done|].
  rewrite app_cons. simpl. by rewrite decide_True.
Qed.

Lemma containsb_complete needle haystack :
  contains needle haystack → containsb needle haystack = true.
Proof.
  intros (before & after & ->).
  induction before as [|a before IH].
  - rewrite app_empty_l.
    destruct (needle +:+ after) eqn:E; simpl; rewrite <-E, prefixb_app; done.
  - rewrite app_cons. simpl. rewrite IH. apply orb_true_r.
Qed.
End Text.

(** ** [send_email] and [compare_tracks] *)

Section Diff.
Implicit Types (tb : list song_row) (w : world) (conn email : string).

Lemma send_email_returns to_email subject content w :
  send_email to_email subject content w =
  Returns ()
    (set_stdout
       (stdout w ++
        [send_line to_email
           (ask (smtp w) (Message subject (environ w !! "SENDER_EMAIL") to_email content)).1])
       (set_smtp
          (ask (smtp w) (Message subject (environ w !! "SENDER_EMAIL") to_email content)).2
          (mail_log w ++
           [(Message subject (environ w !! "SENDER_EMAIL") to_email content,
             (ask (smtp w) (Message subject (environ w !! "SENDER_EMAIL") to_email content)).1)])
          w)).
Proof.
  unfold send_email, try_except, mbind, M_bind, getenv, smtp_session. simpl.
  destruct (ask (smtp w) _) as [[e|] s]; reflexivity.
Qed.

Lemma compare_tracks_two_dates conn email w tb latest previous :
  files w !! conn = Some tb →
  select_dates tb = [latest; previous] →
  compare_tracks conn email w =
  send_email email SUBJECT
    (email_content (select_exclusive tb previous latest)
                   (select_exclusive tb latest previous))
    (set_stdout
       (stdout w ++ [("Comparing " +:+ latest +:+ " with " +:+ previous) +:+ LF]) w).
Proof.
  intros Htb Hd. unfold compare_tracks, with_table. rewrite Htb, Hd. reflexivity.
Qed.

Lemma email_content_report_lines removed added :
  email_content removed added = unlines (report_lines removed added).
Proof.
  unfold email_content, report_lines. rewrite !unlines_app.
  assert (∀ title nothing sign (tracks : list (string * string)),
    unlines (section_lines title nothing sign tracks) =
    match tracks with
    | [] => nothing +:+ LF
    | _ :: _ => title +:+ LF +:+
                join LF ((λ t, sign +:+ " " +:+ t.1 +:+ " by " +:+ t.2) <$> tracks) +:+ LF
    end) as Hsec.
  { intros title nothing sign [|t tracks]; [done|].
    unfold section_lines. rewrite join_unlines by done. done. }
  rewrite !Hsec.
  destruct removed, added; simpl; by rewrite ?string_app_assoc.
Qed.
End Diff.

Section SampleFacts.
Import Sample.

Lemma day1_rows :
  day1 = [row_of d1 tA; row_of d1 tB; row_of d1 tC].
Proof. reflexivity. Qed.

Lemma day2_rows :
  day2 = [row_of d1 tA; row_of d2 tB; row_of d2 tC; row_of d2 tD].
Proof. reflexivity. Qed.

Lemma day1_one_date r1 r2 : r1 ∈ day1 → r2 ∈ day1 → fetch_date r1 = fetch_date r2.
Proof.
  rewrite day1_rows. intros H1 H2.
  repeat (apply elem_of_cons in H1 as [->|H1]);
    repeat (apply elem_of_cons in H2 as [->|H2]);
    try reflexivity; by apply elem_of_nil in H1 || by apply elem_of_nil in H2.
Qed.
End SampleFacts.

Section DiffClaims.
Implicit Types (tb : list song_row) (w : world) (conn email : string).

(** C5.  With fewer than two distinct fetch dates in the user's table,
    [compare_tracks] only prints that there is not enough data and
    returns: no mail is handed to the transport and the files are as
    they were. *)
Theorem not_enough_data conn email w tb
    (Htb : files w !! conn = Some tb)
    (Hone : ∀ r1 r2, r1 ∈ tb → r2 ∈ tb → fetch_date r1 = fetch_date r2) :
  ∃ w', compare_tracks conn email w = Returns () w' ∧
        files w' = files w ∧ mail_log w' = mail_log w ∧ smtp w' = smtp w ∧
        stdout w' = stdout w ++ ["Not enough data to compare." +:+ LF].
Proof.
  exists (set_stdout (stdout w ++ ["Not enough data to compare." +:+ LF]) w).
  split; [|done].
  unfold compare_tracks, with_table. rewrite Htb.
  pose proof (select_dates_short tb Hone) as Hshort.
  destruct (select_dates tb) as [|a [|b [|c l]]]; try reflexivity.
  by destruct (Hshort a b).
Qed.

Lemma not_enough_data_witness :
  files Sample.first_day !! Sample.alice_db = Some Sample.day1 ∧
  (∀ r1 r2, r1 ∈ Sample.day1 → r2 ∈ Sample.day1 → fetch_date r1 = fetch_date r2) ∧
  ∃ w', compare_tracks Sample.alice_db "alice@example.org" Sample.first_day = Returns () w' ∧
        files w' = files Sample.first_day ∧ mail_log w' = mail_log Sample.first_day ∧
        smtp w' = smtp Sample.first_day ∧
        stdout w' = stdout Sample.first_day ++ ["Not enough data to compare." +:+ LF].
Proof.
  assert (files Sample.first_day !! Sample.alice_db = Some Sample.day1) as Htb
    by (vm_compute; reflexivity).
  split; [exact Htb|]. split; [exact day1_one_date|].
  exact (not_enough_data Sample.alice_db "alice@example.org" Sample.first_day
           Sample.day1 Htb day1_one_date).
Defined.

(** C10.  With two distinct fetch dates in the user's table,
    [compare_tracks] hands exactly one mail to the transport, whatever
    the two lists hold; with both lists empty the mail carries the two
    sentences that stand for empty sections. *)
Theorem diff_always_mails conn email w tb r1 r2
    (Htb : files w !! conn = Some tb)
    (Hr1 : r1 ∈ tb) (Hr2 : r2 ∈ tb) (Hne : fetch_date r1 ≠ fetch_date r2) :
  ∃ latest previous w' res,
    select_dates tb = [latest; previous] ∧
    compare_tracks conn email w = Returns () w' ∧
    mail_log w' =
      mail_log w ++
      [(Message SUBJECT (environ w !! "SENDER_EMAIL") email
          (email_content (select_exclusive tb previous latest)
                         (select_exclusive tb latest previous)), res)] ∧
    email_content [] [] =
      GREETING +:+ "No tracks have been removed." +:+ LF +:+
      LF +:+ "No tracks have been added." +:+ LF.
Proof.
  destruct (select_dates_two tb r1 r2 Hr1 Hr2 Hne) as (latest & previous & Hd & _).
  exists latest, previous. eexists _, _. split; [exact Hd|].
  rewrite (compare_tracks_two_dates conn email w tb latest previous Htb Hd).
  rewrite send_email_returns. split; [reflexivity|]. split; reflexivity.
Qed.

Lemma diff_always_mails_witness :
  files Sample.second_day !! Sample.alice_db = Some Sample.day2 ∧
  row_of Sample.d1 Sample.tA ∈ Sample.day2 ∧
  row_of Sample.d2 Sample.tB ∈ Sample.day2 ∧
  fetch_date (row_of Sample.d1 Sample.tA) ≠ fetch_date (row_of Sample.d2 Sample.tB) ∧
  ∃ latest previous w' res,
    select_dates Sample.day2 = [latest; previous] ∧
    compare_tracks Sample.alice_db "alice@example.org" Sample.second_day = Returns () w' ∧
    mail_log w' =
      mail_log Sample.second_day ++
      [(Message SUBJECT (environ Sample.second_day !! "SENDER_EMAIL") "alice@example.org"
          (email_content (select_exclusive Sample.day2 previous latest)
                         (select_exclusive Sample.day2 latest previous)), res)] ∧
    email_content [] [] =
      GREETING +:+ "No tracks have been removed." +:+ LF +:+
      LF +:+ "No tracks have been added." +:+ LF.
Proof.
  assert (files Sample.second_day !! Sample.alice_db = Some Sample.day2) as Htb
    by (vm_compute; reflexivity).
  assert (row_of Sample.d1 Sample.tA ∈ Sample.day2) as H1
    by (rewrite day2_rows; left).
  assert (row_of Sample.d2 Sample.tB ∈ Sample.day2) as H2
    by (rewrite day2_rows; right; left).
  assert (fetch_date (row_of Sample.d1 Sample.tA) ≠ fetch_date (row_of Sample.d2 Sample.tB))
    as Hne by (vm_compute; discriminate).
  split; [exact Htb|]. split; [exact H1|]. split; [exact H2|]. split; [exact Hne|].
  exact (diff_always_mails Sample.alice_db "alice@example.org" Sample.second_day
           Sample.day2 _ _ Htb H1 H2 Hne).
Defined.
End DiffClaims.

Section ReportClaims.
Implicit Types (tb : list song_row) (w : world) (conn email : string).

(** C1, at the input where the code departs from it.  After a first day
    with A, B, C and a second day with B, C, D the table holds A under
    the first date and B, C, D under the second; the removed list is A
    alone, but the added list is B, C and D, and the mail says so. *)
Theorem unchanged_tracks_reported_added :
  Sample.day2 =
    insert_tracks Sample.d2 [Sample.tB; Sample.tC; Sample.tD]
      (insert_tracks Sample.d1 [Sample.tA; Sample.tB; Sample.tC] []) ∧
  select_dates Sample.day2 = [Sample.d2; Sample.d1] ∧
  select_exclusive Sample.day2 Sample.d1 Sample.d2 = [("Alpha", "Ann")] ∧
  select_exclusive Sample.day2 Sample.d2 Sample.d1 =
    [("Beta", "Bob"); ("Gamma", "Cy"); ("Delta", "Di")] ∧
  ∃ w' res,
    compare_tracks Sample.alice_db "alice@example.org" Sample.second_day = Returns () w' ∧
    mail_log w' =
      [(Message SUBJECT None "alice@example.org"
          (unlines ["Hi,"; ""; "Here are the changes to your Spotify Liked Songs:"; "";
                    "Removed Tracks:"; "- Alpha by Ann"; "";
                    "Added Tracks:"; "+ Beta by Bob"; "+ Gamma by Cy"; "+ Delta by Di"]),
        res)].
Proof.
  split; [reflexivity|]. split; [by vm_compute|].
  split; [by vm_compute|]. split; [by vm_compute|].
  eexists _, _.
  rewrite (compare_tracks_two_dates _ _ _ Sample.day2 Sample.d2 Sample.d1)
    by (by vm_compute).
  rewrite send_email_returns. split; [reflexivity|]. by vm_compute.
Qed.

(** C3 as stated fails: the mail that reports on the two sample days
    names neither date. *)
Lemma report_names_no_date :
  select_dates Sample.day2 = [Sample.d2; Sample.d1] ∧
  ∃ w' msg res,
    compare_tracks Sample.alice_db "alice@example.org" Sample.second_day = Returns () w' ∧
    mail_log w' = [(msg, res)] ∧
    ¬ contains Sample.d2 (payload msg) ∧ ¬ contains Sample.d1 (payload msg).
Proof.
  split; [by vm_compute|]. eexists _, _, _.
  rewrite (compare_tracks_two_dates _ _ _ Sample.day2 Sample.d2 Sample.d1)
    by (by vm_compute).
  rewrite send_email_returns. split; [reflexivity|]. split; [reflexivity|].
  split; intros Hc%containsb_complete; vm_compute in Hc; discriminate.
Qed.

(** C3, amended.  When the table has its two dates, [compare_tracks]
    prints the two dates on the console and hands over a mail whose body
    is, line by line, the fixed greeting, the removed section, an empty
    line and the added section; a section is its title and one line per
    track, or the sentence that stands for an empty one. *)
Theorem report_layout conn email w tb latest previous
    (Htb : files w !! conn = Some tb)
    (Hd : select_dates tb = [latest; previous]) :
  ∃ w' res,
    compare_tracks conn email w = Returns () w' ∧
    stdout w' =
      stdout w ++ [("Comparing " +:+ latest +:+ " with " +:+ previous) +:+ LF;
                   send_line email res] ∧
    mail_log w' =
      mail_log w ++
      [(Message SUBJECT (environ w !! "SENDER_EMAIL") email
          (unlines (report_lines (select_exclusive tb previous latest)
                                 (select_exclusive tb latest previous))), res)].
Proof.
  eexists _, _.
  rewrite (compare_tracks_two_dates conn email w tb latest previous Htb Hd).
  rewrite send_email_returns, <-email_content_report_lines.
  split; [reflexivity|]. split; [|reflexivity].
  simpl. by rewrite <-app_assoc.
Qed.

Lemma report_layout_witness :
  files Sample.second_day !! Sample.alice_db = Some Sample.day2 ∧
  select_dates Sample.day2 = [Sample.d2; Sample.d1] ∧
  ∃ w' res,
    compare_tracks Sample.alice_db "alice@example.org" Sample.second_day = Returns () w' ∧
    stdout w' =
      stdout Sample.second_day ++
      [("Comparing " +:+ Sample.d2 +:+ " with " +:+ Sample.d1) +:+ LF;
       send_line "alice@example.org" res] ∧
    mail_log w' =
      mail_log Sample.second_day ++
      [(Message SUBJECT (environ Sample.second_day !! "SENDER_EMAIL") "alice@example.org"
          (unlines (report_lines (select_exclusive Sample.day2 Sample.d1 Sample.d2)
                                 (select_exclusive Sample.day2 Sample.d2 Sample.d1))), res)].
Proof.
  assert (files Sample.second_day !! Sample.alice_db = Some Sample.day2) as Htb
    by (vm_compute; reflexivity).
  assert (select_dates Sample.day2 = [Sample.d2; Sample.d1]) as Hd
    by (vm_compute; reflexivity).
  split; [exact Htb|]. split; [exact Hd|].
  exact (report_layout Sample.alice_db "alice@example.org" Sample.second_day
           Sample.day2 Sample.d2 Sample.d1 Htb Hd).
Defined.
End ReportClaims.

(** ** The paged fetch *)

Section Fetch.
Implicit Types (w : world) (acc : list Track.t) (tss : list (list Track.t))
               (offset : Z) (fuel k : nat).

Lemma fetched_only_refl w : fetched_only w w.
Proof. by repeat split. Qed.

Lemma fetched_only_trans w1 w2 w3 :
  fetched_only w1 w2 → fetched_only w2 w3 → fetched_only w1 w3.
Proof. unfold fetched_only. intros (?&?&?&?&?&?) (?&?&?&?&?&?). repeat split; congruence. Qed.

Lemma append_items_all acc its ts w :
  mapM track_of_item its = Some ts → append_items acc its w = Returns (acc ++ ts) w.
Proof.
  rewrite mapM_Some. intros Hts. revert acc.
  induction Hts as [|item t its ts Hitem _ IH]; intros acc; simpl.
  - by rewrite app_nil_r.
  - rewrite Hitem, IH, <-app_assoc. done.
Qed.

Lemma append_items_total acc its w :
  (∃ ts, append_items acc its w = Returns ts w) ∨
  (∃ e, append_items acc its w = Raises e w).
Proof.
  revert acc. induction its as [|item its IH]; intros acc; simpl.
  - left. by eexists.
  - destruct (track_of_item item); [apply IH|]. right. by eexists.
Qed.

Lemma append_items_none acc its w :
  mapM track_of_item its = None → ∃ e, append_items acc its w = Raises e w.
Proof.
  revert acc. induction its as [|item its IH]; intros acc Hnone; [done|].
  simpl in *. destruct (track_of_item item) as [t|]; [|by eexists].
  apply IH. simpl in Hnone. by destruct (mapM track_of_item its).
Qed.

(** One turn of the loop, by the answer to its request. *)
Lemma fetch_loop_failed fuel acc offset tot w e :
  (ask (spotify w) (50, offset)).1 = Failed e →
  fetch_loop (S fuel) acc offset tot w =
  Raises e (set_spotify (ask (spotify w) (50, offset)).2 w).
Proof.
  intros Hr. simpl. unfold mbind, M_bind, current_user_saved_tracks.
  destruct (ask (spotify w) (50, offset)) as [r s]. simpl in Hr. by subst r.
Qed.

Lemma fetch_loop_empty fuel acc offset tot w n :
  (ask (spotify w) (50, offset)).1 = Page (Results n []) →
  ∃ w', fetch_loop (S fuel) acc offset tot w = Returns acc w' ∧ fetched_only w w'.
Proof.
  intros Hr. simpl. unfold mbind, M_bind, current_user_saved_tracks.
  destruct (ask (spotify w) (50, offset)) as [r s]. simpl in Hr. subst r.
  destruct tot; simpl; eexists; (split; [reflexivity|by repeat split]).
Qed.

Lemma fetch_loop_full fuel acc offset tot w ts :
  full_page (ask (spotify w) (50, offset)).1 ts →
  ∃ w' tot',
    fetch_loop (S fuel) acc offset tot w =
      fetch_loop fuel (acc ++ ts) (offset + 50) tot' w' ∧
    spotify w' = (ask (spotify w) (50, offset)).2 ∧ fetched_only w w'.
Proof.
  intros (res & Hr & Hne & Hts). simpl.
  unfold mbind, M_bind, current_user_saved_tracks.
  destruct (ask (spotify w) (50, offset)) as [r s]. simpl in Hr. subst r.
  destruct (items res) as [|item its] eqn:Hits; [done|].
  destruct tot; cbn -[append_items]; rewrite (append_items_all _ _ ts) by done;
    eexists _, _; (split; [reflexivity|by repeat split]).
Qed.

Lemma fetch_loop_bad_item fuel acc offset tot w res :
  (ask (spotify w) (50, offset)).1 = Page res →
  items res ≠ [] →
  mapM track_of_item (items res) = None →
  ∃ e w', fetch_loop (S fuel) acc offset tot w = Raises e w'.
Proof.
  intros Hr Hne Hnone. simpl.
  unfold mbind, M_bind, current_user_saved_tracks.
  destruct (ask (spotify w) (50, offset)) as [r s]. simpl in Hr. subst r.
  destruct (items res) as [|item its] eqn:Hits; [done|].
  destruct tot; cbn -[append_items];
    match goal with |- context [append_items acc (item :: its) ?w0] =>
      destruct (append_items_none acc (item :: its) w0 Hnone) as [e ->] end;
    by eexists _, _.
Qed.

(** Through [k] full pages the loop only accumulates. *)
Lemma fetch_loop_full_pages k : ∀ fuel acc offset tot w tss,
  length tss = k →
  (∀ j ts, tss !! j = Some ts → full_page (page_from (spotify w) offset j) ts) →
  ∃ w' tot',
    fetch_loop (k + fuel) acc offset tot w =
      fetch_loop fuel (acc ++ concat tss) (offset + 50 * Z.of_nat k) tot' w' ∧
    (∀ j, page_from (spotify w') (offset + 50 * Z.of_nat k) j =
          page_from (spotify w) offset (k + j)) ∧
    fetched_only w w'.
Proof.
  induction k as [|k IH]; intros fuel acc offset tot w tss Hlen Hfull.
  - destruct tss; [|done]. exists w, tot. simpl.
    rewrite app_nil_r, Z.add_0_r. split; [done|]. split; [done|].
    apply fetched_only_refl.
  - destruct tss as [|ts tss]; [done|]. simpl in Hlen.
    destruct (fetch_loop_full (k + fuel) acc offset tot w ts) as (w1 & tot1 & Hstep & Hsp & Hfr).
    { apply (Hfull 0%nat ts). done. }
    destruct (IH fuel (acc ++ ts) (offset + 50) tot1 w1 tss) as (w2 & tot2 & Hrest & Hpages & Hfr').
    { lia. }
    { intros j ts' Hj. rewrite Hsp. apply (Hfull (S j) ts'). done. }
    exists w2, tot2. split; [|split].
    + change (S k + fuel)%nat with (S (k + fuel)). rewrite Hstep, Hrest.
      simpl concat. rewrite <-app_assoc. f_equal. lia.
    + intros j. replace (offset + 50 * Z.of_nat (S k)) with (offset + 50 + 50 * Z.of_nat k) by lia.
      rewrite Hpages, Hsp. done.
    + by eapply fetched_only_trans.
Qed.

(** An empty page [k] requests ahead ends the loop within [k + 1]
    requests, whatever comes before it. *)
Lemma fetch_loop_terminates k : ∀ fuel acc offset tot w,
  (k < fuel)%nat →
  empty_page (page_from (spotify w) offset k) →
  fetch_loop fuel acc offset tot w ≠ OutOfFuel.
Proof.
  induction k as [|k IH]; intros fuel acc offset tot w Hfuel Hempty;
    (destruct fuel as [|fuel]; [lia|]).
  - destruct Hempty as (n & Hr). simpl in Hr.
    destruct (fetch_loop_empty fuel acc offset tot w n Hr) as (w' & -> & _). done.
  - simpl in Hempty.
    destruct (ask (spotify w) (50, offset)).1 as [res|e] eqn:Hr.
    + destruct (items res) as [|item its] eqn:Hits.
      * destruct res as [n its']. simpl in Hits. subst its'.
        destruct (fetch_loop_empty fuel acc offset tot w n Hr) as (w' & -> & _). done.
      * destruct (mapM track_of_item (items res)) as [ts|] eqn:Hts.
        -- destruct (fetch_loop_full fuel acc offset tot w ts) as (w' & tot' & -> & Hsp & _).
           { exists res. split; [done|]. split; [by rewrite Hits|done]. }
           apply IH; [lia|]. by rewrite Hsp.
        -- destruct (fetch_loop_bad_item fuel acc offset tot w res) as (e & w' & ->);
             [done|by rewrite Hits|done|done].
    + by rewrite (fetch_loop_failed fuel acc offset tot w e Hr).
Qed.
End Fetch.

Section Run.
Implicit Types (w : world) (fuel k : nat) (us : list (string * string)).

Lemma get_liked_songs_returns fuel w ts w1 :
  fetch_loop fuel [] 0 None w = Returns ts w1 →
  get_liked_songs fuel w =
  Returns ts (set_stdout (stdout w1 ++ [(LF +:+ "Done fetching tracks") +:+ LF]) w1).
Proof.
  intros Hloop. unfold get_liked_songs, try_except, mbind, M_bind. by rewrite Hloop.
Qed.

Lemma get_liked_songs_exits fuel w e w1 :
  fetch_loop fuel [] 0 None w = Raises e w1 →
  get_liked_songs fuel w =
  Exits 1 (set_stdout (stdout w1 ++ [(LF +:+ "Error fetching tracks: " +:+ e) +:+ LF]) w1).
Proof.
  intros Hloop. unfold get_liked_songs, try_except, mbind, M_bind. by rewrite Hloop.
Qed.

Lemma get_liked_songs_fuel fuel w :
  get_liked_songs fuel w = OutOfFuel → fetch_loop fuel [] 0 None w = OutOfFuel.
Proof.
  unfold get_liked_songs, try_except, mbind, M_bind.
  by destruct (fetch_loop fuel [] 0 None w).
Qed.

(** Up to the fetch, a user's turn prints and makes sure the table
    exists. *)
Lemma process_user_fetch fuel user_id email w :
  ∃ w1,
    process_user fuel (user_id, email) w =
      (current_tracks ← get_liked_songs fuel;
       save_tracks_to_db (DATABASE_FILE_TEMPLATE_format user_id) current_tracks;;
       compare_tracks (DATABASE_FILE_TEMPLATE_format user_id) email) w1 ∧
    files w1 = create_table_if_not_exists (DATABASE_FILE_TEMPLATE_format user_id) (files w) ∧
    environ w1 = environ w ∧ users w1 = users w ∧ spotify w1 = spotify w ∧
    smtp w1 = smtp w ∧ mail_log w1 = mail_log w ∧ clock w1 = clock w.
Proof. eexists. split; [reflexivity|]. by repeat split. Qed.

Lemma for_users_app fuel us1 us2 w :
  for_users fuel (us1 ++ us2) w = (for_users fuel us1;; for_users fuel us2) w.
Proof.
  revert w. induction us1 as [|u us1 IH]; intros w; [done|].
  simpl. unfold mbind, M_bind in *.
  destruct (process_user fuel u w); done.
Qed.

Lemma for_users_exits fuel user rest w c w' :
  process_user fuel user w = Exits c w' →
  for_users fuel (user :: rest) w = Exits c w'.
Proof. intros Hp. simpl. unfold mbind, M_bind. by rewrite Hp. Qed.
End Run.

Section FetchClaims.
Implicit Types (w : world) (fuel k : nat) (tss : list (list Track.t)).

(** C4.  If the answer to request number [k] is an empty page, the fetch
    is over within [k + 1] requests; when the pages before it are full
    ones it returns their tracks, in order, and nothing in this depends
    on the totals the service reports. *)
Theorem fetch_stops_at_first_empty_page w k fuel
    (Hempty : empty_page (page_at (spotify w) k))
    (Hfuel : (k < fuel)%nat) :
  get_liked_songs fuel w ≠ OutOfFuel ∧
  ∀ tss, length tss = k →
         (∀ j ts, tss !! j = Some ts → full_page (page_at (spotify w) j) ts) →
         ∃ w', get_liked_songs fuel w = Returns (concat tss) w' ∧ fetched_only w w'.
Proof.
  split.
  - intros Hout%get_liked_songs_fuel. revert Hout.
    by apply (fetch_loop_terminates k).
  - intros tss Hlen Hfull.
    destruct (fetch_loop_full_pages k (fuel - k) [] 0 None w tss Hlen Hfull)
      as (w1 & tot1 & Hskip & Hpages & Hfr).
    replace (k + (fuel - k))%nat with fuel in Hskip by lia.
    destruct (fuel - k)%nat as [|rest] eqn:Hrest; [lia|].
    destruct Hempty as (n & Hn). unfold page_at in Hn.
    specialize (Hpages 0%nat). rewrite Nat.add_0_r, Hn in Hpages. simpl in Hpages.
    destruct (fetch_loop_empty rest (concat tss) (0 + 50 * Z.of_nat k) tot1 w1 n Hpages)
      as (w2 & Hend & Hfr2).
    eexists. split.
    + apply get_liked_songs_returns. rewrite Hskip. exact Hend.
    + destruct (fetched_only_trans _ _ _ Hfr Hfr2) as (?&?&?&?&?&?). by repeat split.
Qed.

Lemma fetch_stops_at_first_empty_page_witness :
  empty_page (page_at (spotify Sample.drifting) 1) ∧
  (1 < 2)%nat ∧
  (get_liked_songs 2 Sample.drifting ≠ OutOfFuel ∧
   ∀ tss, length tss = 1%nat →
          (∀ j ts, tss !! j = Some ts → full_page (page_at (spotify Sample.drifting) j) ts) →
          ∃ w', get_liked_songs 2 Sample.drifting = Returns (concat tss) w' ∧
                fetched_only Sample.drifting w') ∧
  page_at (spotify Sample.drifting) 0 = Page (Results 120 Sample.fifty) ∧
  length Sample.fifty_tracks = 50%nat ∧
  ∃ w', get_liked_songs 2 Sample.drifting = Returns Sample.fifty_tracks w'.
Proof.
  assert (empty_page (page_at (spotify Sample.drifting) 1)) as Hempty
    by (exists 120; vm_compute; reflexivity).
  assert (1 < 2)%nat as Hfuel by lia.
  pose proof (fetch_stops_at_first_empty_page Sample.drifting 1 2 Hempty Hfuel) as Hstop.
  split; [exact Hempty|]. split; [exact Hfuel|]. split; [exact Hstop|].
  split; [vm_compute; reflexivity|]. split; [vm_compute; reflexivity|].
  destruct Hstop as [_ Hret].
  destruct (Hret [Sample.fifty_tracks]) as (w' & Hw' & _); [reflexivity| |].
  - intros [|j] ts Hj; [|done]. injection Hj as <-.
    exists (Results 120 Sample.fifty).
    split; [vm_compute; reflexivity|]. split; [vm_compute; discriminate|].
    vm_compute; reflexivity.
  - exists w'. rewrite Hw'. f_equal.
Defined.
End FetchClaims.

Section FailureClaims.
Implicit Types (w : world) (fuel k : nat) (tss : list (list Track.t)).

Lemma fetch_loop_fails w k fuel e tss :
  (k < fuel)%nat → length tss = k →
  (∀ j ts, tss !! j = Some ts → full_page (page_at (spotify w) j) ts) →
  page_at (spotify w) k = Failed e →
  ∃ w1, fetch_loop fuel [] 0 None w = Raises e w1 ∧ fetched_only w w1.
Proof.
  intros Hfuel Hlen Hfull Hfail.
  destruct (fetch_loop_full_pages k (fuel - k) [] 0 None w tss Hlen Hfull)
    as (w1 & tot1 & Hskip & Hpages & Hfr).
  replace (k + (fuel - k))%nat with fuel in Hskip by lia.
  destruct (fuel - k)%nat as [|rest] eqn:Hrest; [lia|].
  unfold page_at in Hfail.
  specialize (Hpages 0%nat). rewrite Nat.add_0_r, Hfail in Hpages. simpl in Hpages.
  eexists. split.
  - rewrite Hskip. by apply fetch_loop_failed.
  - destruct Hfr as (?&?&?&?&?&?). by repeat split.
Qed.

(** C8.  When a page request fails after [k] full pages, [get_liked_songs]
    returns no list: it prints the error and leaves with status 1.  The
    run ends there, in the turn of the user being fetched: the users
    after that one are not processed, no file but that user's (made sure
    to exist) is touched and nothing is handed to the transport. *)
Theorem fetch_failure_is_fatal w k fuel e tss
    (Hfuel : (k < fuel)%nat) (Hlen : length tss = k)
    (Hfull : ∀ j ts, tss !! j = Some ts → full_page (page_at (spotify w) j) ts)
    (Hfail : page_at (spotify w) k = Failed e) :
  (∃ w', get_liked_songs fuel w = Exits 1 w' ∧ fetched_only w w' ∧
         last (stdout w') = Some ((LF +:+ "Error fetching tracks: " +:+ e) +:+ LF)) ∧
  (∀ w0 before u after,
     users w0 = before ++ u :: after →
     for_users fuel (user_entry <$> before) w0 = Returns () w →
     ∃ w', main fuel w0 = Exits 1 w' ∧
           main fuel w0 = for_users fuel (user_entry <$> before ++ [u]) w0 ∧
           files w' = create_table_if_not_exists
                        (DATABASE_FILE_TEMPLATE_format (Users.spotify_user_id u)) (files w) ∧
           mail_log w' = mail_log w).
Proof.
  split.
  - destruct (fetch_loop_fails w k fuel e tss Hfuel Hlen Hfull Hfail) as (w1 & Hloop & Hfr).
    eexists. split; [by apply get_liked_songs_exits|]. split.
    + destruct Hfr as (?&?&?&?&?&?). by repeat split.
    + simpl. apply last_snoc.
  - intros w0 before u after Husers Hbefore.
    destruct (process_user_fetch fuel (Users.spotify_user_id u) (Users.email u) w)
      as (w1 & Hturn & Hfiles & _ & _ & Hsp & _ & Hlog & _).
    destruct (fetch_loop_fails w1 k fuel e tss Hfuel Hlen) as (w2 & Hloop & Hfr).
    { by rewrite Hsp. }
    { by rewrite Hsp. }
    apply get_liked_songs_exits in Hloop.
    assert (process_user fuel (user_entry u) w =
            Exits 1 (set_stdout (stdout w2 ++ [(LF +:+ "Error fetching tracks: " +:+ e) +:+ LF]) w2))
      as Hexit.
    { unfold user_entry. rewrite Hturn. unfold mbind, M_bind. by rewrite Hloop. }
    assert (∀ rest, for_users fuel (user_entry <$> before ++ u :: rest) w0 =
            Exits 1 (set_stdout (stdout w2 ++ [(LF +:+ "Error fetching tracks: " +:+ e) +:+ LF]) w2))
      as Hrun.
    { intros rest. rewrite fmap_app, for_users_app. unfold mbind, M_bind.
      rewrite Hbefore. rewrite fmap_cons. by apply for_users_exits. }
    eexists. unfold main. rewrite Husers. split; [by apply Hrun|].
    split; [by rewrite !Hrun|].
    destruct Hfr as (_ & Hf & _ & _ & Hl & _). simpl. split; congruence.
Qed.

Lemma fetch_failure_is_fatal_witness :
  (1 < 2)%nat ∧ length [Sample.fifty_tracks] = 1%nat ∧
  (∀ j ts, [Sample.fifty_tracks] !! j = Some ts →
           full_page (page_at (spotify Sample.failing) j) ts) ∧
  page_at (spotify Sample.failing) 1 = Failed "HTTP 503" ∧
  ((∃ w', get_liked_songs 2 Sample.failing = Exits 1 w' ∧
          fetched_only Sample.failing w' ∧
          last (stdout w') = Some ((LF +:+ "Error fetching tracks: " +:+ "HTTP 503") +:+ LF)) ∧
   (∀ w0 before u after,
      users w0 = before ++ u :: after →
      for_users 2 (user_entry <$> before) w0 = Returns () Sample.failing →
      ∃ w', main 2 w0 = Exits 1 w' ∧
            main 2 w0 = for_users 2 (user_entry <$> before ++ [u]) w0 ∧
            files w' = create_table_if_not_exists
                         (DATABASE_FILE_TEMPLATE_format (Users.spotify_user_id u))
                         (files Sample.failing) ∧
            mail_log w' = mail_log Sample.failing)) ∧
  ∃ w', main 2 Sample.failing = Exits 1 w' ∧ mail_log w' = [].
Proof.
  assert (1 < 2)%nat as Hfuel by lia.
  assert (length [Sample.fifty_tracks] = 1%nat) as Hlen by reflexivity.
  assert (∀ j ts, [Sample.fifty_tracks] !! j = Some ts →
                  full_page (page_at (spotify Sample.failing) j) ts) as Hfull.
  { intros [|j] ts Hj; [|done]. injection Hj as <-.
    exists (Results 120 Sample.fifty).
    split; [vm_compute; reflexivity|]. split; [vm_compute; discriminate|].
    vm_compute; reflexivity. }
  assert (page_at (spotify Sample.failing) 1 = Failed "HTTP 503") as Hfail
    by (vm_compute; reflexivity).
  pose proof (fetch_failure_is_fatal Sample.failing 1 2 "HTTP 503" [Sample.fifty_tracks]
                Hfuel Hlen Hfull Hfail) as Hfatal.
  split; [exact Hfuel|]. split; [exact Hlen|]. split; [exact Hfull|].
  split; [exact Hfail|]. split; [exact Hfatal|].
  destruct Hfatal as [_ Hrun].
  destruct (Hrun Sample.failing [] Sample.alice [Sample.bob]) as (w' & Hw' & _ & _ & Hlog);
    [reflexivity|reflexivity|].
  exists w'. split; [exact Hw'|exact Hlog].
Defined.
End FailureClaims.

Section SaveClaims.
Implicit Types (w : world) (tb : list song_row) (ts : list Track.t) (conn d : string).

Lemma set_files_same w : set_files (files w) w = w.
Proof. by destruct w. Qed.

Lemma execute_inserts_table conn d ts : ∀ w tb,
  files w !! conn = Some tb →
  execute_inserts conn d ts w =
  Returns () (set_files (<[conn := insert_tracks d ts tb]> (files w)) w).
Proof.
  induction ts as [|t ts IH]; intros w tb Htb; simpl.
  - by rewrite insert_id, set_files_same.
  - unfold mbind, M_bind, with_table, set_table. rewrite Htb.
    erewrite IH by apply lookup_insert_eq. simpl.
    by rewrite insert_insert_eq.
Qed.

Lemma save_tracks_to_db_returns conn ts w tb :
  files w !! conn = Some tb →
  save_tracks_to_db conn ts w =
  Returns ()
    (set_stdout
       (stdout w ++ [("Tracks saved to database on " +:+ (ask (clock w) ()).1) +:+ LF])
       (set_files (<[conn := insert_tracks (ask (clock w) ()).1 ts tb]> (files w))
          (set_clock (ask (clock w) ()).2 w))).
Proof.
  intros Htb. unfold save_tracks_to_db.
  destruct (ask (clock w) ()) as [d c]. unfold mbind, M_bind.
  by rewrite (execute_inserts_table conn d ts _ tb).
Qed.

(** C6.  Saving the same tracks again under the same date leaves the
    table as the first save left it, row for row; so does
    [save_tracks_to_db] run twice while the clock shows one date. *)
Theorem save_twice_is_save_once conn ts w tb d c c'
    (Htb : files w !! conn = Some tb)
    (Hfirst : ask (clock w) () = (d, c))
    (Hsecond : ask c () = (d, c')) :
  insert_tracks d ts (insert_tracks d ts tb) = insert_tracks d ts tb ∧
  ∃ w1 w2,
    save_tracks_to_db conn ts w = Returns () w1 ∧
    save_tracks_to_db conn ts w1 = Returns () w2 ∧
    files w1 !! conn = Some (insert_tracks d ts tb) ∧
    files w2 = files w1.
Proof.
  split; [apply insert_tracks_idempotent|].
  eexists _, _. split; [by apply save_tracks_to_db_returns|].
  rewrite Hfirst. simpl.
  split; [|split].
  - erewrite save_tracks_to_db_returns; [reflexivity|]. simpl. apply lookup_insert_eq.
  - apply lookup_insert_eq.
  - simpl. rewrite Hsecond. simpl.
    by rewrite insert_tracks_idempotent, insert_insert_eq.
Qed.

Lemma save_twice_is_save_once_witness :
  files Sample.first_day !! Sample.alice_db = Some Sample.day1 ∧
  ask (clock Sample.first_day) () = (Sample.d2, Sample.always Sample.d2) ∧
  ask (Sample.always Sample.d2) () = (Sample.d2, Sample.always Sample.d2) ∧
  (insert_tracks Sample.d2 [Sample.tB; Sample.tC; Sample.tD]
     (insert_tracks Sample.d2 [Sample.tB; Sample.tC; Sample.tD] Sample.day1) =
   insert_tracks Sample.d2 [Sample.tB; Sample.tC; Sample.tD] Sample.day1 ∧
   ∃ w1 w2,
     save_tracks_to_db Sample.alice_db [Sample.tB; Sample.tC; Sample.tD] Sample.first_day
       = Returns () w1 ∧
     save_tracks_to_db Sample.alice_db [Sample.tB; Sample.tC; Sample.tD] w1 = Returns () w2 ∧
     files w1 !! Sample.alice_db =
       Some (insert_tracks Sample.d2 [Sample.tB; Sample.tC; Sample.tD] Sample.day1) ∧
     files w2 = files w1).
Proof.
  assert (files Sample.first_day !! Sample.alice_db = Some Sample.day1) as Htb
    by (vm_compute; reflexivity).
  assert (ask (clock Sample.first_day) () = (Sample.d2, Sample.always Sample.d2)) as H1
    by reflexivity.
  assert (ask (Sample.always Sample.d2) () = (Sample.d2, Sample.always (Q := ()) Sample.d2)) as H2
    by reflexivity.
  split; [exact Htb|]. split; [exact H1|]. split; [exact H2|].
  exact (save_twice_is_save_once Sample.alice_db [Sample.tB; Sample.tC; Sample.tD]
           Sample.first_day Sample.day1 Sample.d2 _ _ Htb H1 H2).
Defined.
End SaveClaims.

(** ** The mail transport has no say in the run *)

Section MailBlind.
Implicit Types (w : world).

Create HintDb blind discriminated.

Lemma mail_blind_ret {A} (a : A) : mail_blind (mret a).
Proof. intros w1 w2 Hw. by split. Qed.

Lemma mail_blind_bind {A B} (m : M A) (k : A → M B) :
  mail_blind m → (∀ a, mail_blind (k a)) → mail_blind (m ≫= k).
Proof.
  intros Hm Hk w1 w2 Hw. unfold mbind, M_bind.
  specialize (Hm w1 w2 Hw).
  destruct (m w1), (m w2); simpl in Hm; try done.
  destruct Hm as [-> Hw']. by apply Hk.
Qed.

Lemma mail_blind_try {A} (body : M A) (handler : string → M A) :
  mail_blind body → (∀ e, mail_blind (handler e)) → mail_blind (try_except body handler).
Proof.
  intros Hb Hh w1 w2 Hw. unfold try_except.
  specialize (Hb w1 w2 Hw).
  destruct (body w1), (body w2); simpl in Hb; try done.
  destruct Hb as [-> Hw']. by apply Hh.
Qed.

Lemma mail_blind_print_end s e : mail_blind (print_end s e).
Proof. intros w1 w2 (?&?&?&?&?). by repeat split. Qed.

Lemma mail_blind_print s : mail_blind (print s).
Proof. apply mail_blind_print_end. Qed.

Lemma mail_blind_sys_exit {A} c : mail_blind (sys_exit (A := A) c).
Proof. intros w1 w2 Hw. by split. Qed.

Lemma mail_blind_raise {A} e : mail_blind (raise (A := A) e).
Proof. intros w1 w2 Hw. by split. Qed.

Lemma mail_blind_out_of_fuel {A} : mail_blind (out_of_fuel (A := A)).
Proof. by intros w1 w2 Hw. Qed.

Lemma mail_blind_setup user_id : mail_blind (setup_user_songs_database user_id).
Proof.
  intros w1 w2 (?&Hf&?&?&?). unfold setup_user_songs_database. simpl.
  rewrite Hf. by repeat split.
Qed.

Lemma mail_blind_request limit offset : mail_blind (current_user_saved_tracks limit offset).
Proof.
  intros w1 w2 (?&?&?&Hs&?). unfold current_user_saved_tracks. rewrite Hs.
  destruct (ask (spotify w2) (limit, offset)) as [[res|e] s]; by repeat split.
Qed.

Lemma mail_blind_append_items acc its : mail_blind (append_items acc its).
Proof.
  revert acc. induction its as [|item its IH]; intros acc; simpl.
  - apply mail_blind_ret.
  - destruct (track_of_item item); [apply IH|apply mail_blind_raise].
Qed.

Hint Resolve mail_blind_ret mail_blind_print mail_blind_print_end mail_blind_sys_exit
  mail_blind_raise mail_blind_out_of_fuel mail_blind_setup mail_blind_request
  mail_blind_append_items : blind.

Lemma mail_blind_fetch_loop fuel : ∀ acc offset tot, mail_blind (fetch_loop fuel acc offset tot).
Proof.
  induction fuel as [|fuel IH]; intros acc offset tot; simpl; [auto with blind|].
  apply mail_blind_bind; [auto with blind|]. intros res.
  apply mail_blind_bind.
  - destruct tot; [auto with blind|]. apply mail_blind_bind; auto with blind.
  - intros total'. destruct (items res); [auto with blind|].
    apply mail_blind_bind; [auto with blind|]. intros tracks'.
    apply mail_blind_bind; [auto with blind|]. intros _. apply IH.
Qed.

Lemma mail_blind_get_liked_songs fuel : mail_blind (get_liked_songs fuel).
Proof.
  unfold get_liked_songs. apply mail_blind_try.
  - apply mail_blind_bind; [apply mail_blind_fetch_loop|]. intros tracks.
    apply mail_blind_bind; auto with blind.
  - intros e. apply mail_blind_bind; auto with blind.
Qed.

Lemma mail_blind_with_table {A} conn (k : list song_row → M A) :
  (∀ tb, mail_blind (k tb)) → mail_blind (with_table conn k).
Proof.
  intros Hk w1 w2 Hw. unfold with_table.
  destruct Hw as (He&Hf&Hu&Hs&Hc). rewrite Hf.
  destruct (files w2 !! conn) as [tb|]; [by apply Hk|by repeat split].
Qed.

Lemma mail_blind_set_table conn tb : mail_blind (set_table conn tb).
Proof. intros w1 w2 (?&Hf&?&?&?). unfold set_table. simpl. rewrite Hf. by repeat split. Qed.

Lemma mail_blind_execute_inserts conn d tracks : mail_blind (execute_inserts conn d tracks).
Proof.
  induction tracks as [|track rest IH]; simpl; [auto with blind|].
  apply mail_blind_bind; [|by intros _].
  apply mail_blind_with_table. intros tb. apply mail_blind_set_table.
Qed.

Lemma mail_blind_save conn tracks : mail_blind (save_tracks_to_db conn tracks).
Proof.
  intros w1 w2 Hw. unfold save_tracks_to_db.
  assert (clock w1 = clock w2) as Hc by apply Hw. rewrite Hc.
  destruct (ask (clock w2) ()) as [d c].
  apply mail_blind_bind.
  - apply mail_blind_execute_inserts.
  - auto with blind.
  - destruct Hw as (?&?&?&?&?). by repeat split.
Qed.

Lemma mail_blind_send_email to_email subject content :
  mail_blind (send_email to_email subject content).
Proof.
  intros w1 w2 (?&?&?&?&?). rewrite !send_email_returns. by repeat split.
Qed.

Lemma mail_blind_compare_tracks conn email : mail_blind (compare_tracks conn email).
Proof.
  unfold compare_tracks. apply mail_blind_with_table. intros tb.
  destruct (select_dates tb) as [|latest [|previous [|x l]]]; auto with blind.
  apply mail_blind_bind; [auto with blind|]. intros _. apply mail_blind_send_email.
Qed.

Lemma mail_blind_process_user fuel user : mail_blind (process_user fuel user).
Proof.
  destruct user as [user_id email]. unfold process_user.
  apply mail_blind_bind; [auto with blind|]. intros _.
  apply mail_blind_bind; [auto with blind|]. intros user_conn.
  apply mail_blind_bind; [auto with blind|]. intros _.
  apply mail_blind_bind; [apply mail_blind_get_liked_songs|]. intros current_tracks.
  apply mail_blind_bind; [apply mail_blind_save|]. intros _.
  apply mail_blind_compare_tracks.
Qed.

Lemma mail_blind_for_users fuel us : mail_blind (for_users fuel us).
Proof.
  induction us as [|user rest IH]; simpl; [auto with blind|].
  apply mail_blind_bind; [apply mail_blind_process_user|]. by intros _.
Qed.

Lemma mail_blind_main fuel : mail_blind (main fuel).
Proof.
  intros w1 w2 Hw. unfold main.
  assert (users w1 = users w2) as -> by apply Hw.
  by apply mail_blind_for_users.
Qed.
End MailBlind.

Section DeliveryClaims.
Implicit Types (w : world).

(** C9.  When the transport refuses the session, [send_email] prints
    the error and returns: whatever the caller does next is done, in a
    world that differs only by that line and by the transport's own
    record.  And nothing in a run depends on the transport: two runs
    that differ in it alone go through the same steps on the same files. *)
Theorem delivery_failure_is_contained to_email subject content w e s
    (Hfail : ask (smtp w) (Message subject (environ w !! "SENDER_EMAIL") to_email content)
             = (Some e, s)) :
  (∃ w', send_email to_email subject content w = Returns () w' ∧
         stdout w' =
           stdout w ++ [("Error sending email to " +:+ to_email +:+ ": " +:+ e) +:+ LF] ∧
         mail_log w' =
           mail_log w ++
           [(Message subject (environ w !! "SENDER_EMAIL") to_email content, Some e)] ∧
         same_but_mail w w' ∧
         ∀ B (k : () → M B), (send_email to_email subject content ≫= k) w = k () w') ∧
  (∀ fuel w1 w2, same_but_mail w1 w2 → same_outcome (main fuel w1) (main fuel w2)).
Proof.
  split; [|intros fuel; apply mail_blind_main].
  eexists. split; [apply send_email_returns|].
  rewrite Hfail. simpl. split; [done|]. split; [done|]. split; [by repeat split|].
  intros B k. unfold mbind, M_bind. by rewrite send_email_returns, Hfail.
Qed.

Lemma delivery_failure_is_contained_witness :
  ask (smtp Sample.undelivered)
      (Message SUBJECT (environ Sample.undelivered !! "SENDER_EMAIL")
               "alice@example.org" "Hi,")
    = (Some "connection refused", Sample.always (Some "connection refused")) ∧
  ((∃ w', send_email "alice@example.org" SUBJECT "Hi," Sample.undelivered = Returns () w' ∧
          stdout w' =
            stdout Sample.undelivered ++
            [("Error sending email to " +:+ "alice@example.org" +:+ ": " +:+
              "connection refused") +:+ LF] ∧
          mail_log w' =
            mail_log Sample.undelivered ++
            [(Message SUBJECT (environ Sample.undelivered !! "SENDER_EMAIL")
                      "alice@example.org" "Hi,", Some "connection refused")] ∧
          same_but_mail Sample.undelivered w' ∧
          ∀ B (k : () → M B),
            (send_email "alice@example.org" SUBJECT "Hi," ≫= k) Sample.undelivered = k () w') ∧
   (∀ fuel w1 w2, same_but_mail w1 w2 → same_outcome (main fuel w1) (main fuel w2))) ∧
  ∃ w', main 1 Sample.undelivered = Returns () w' ∧
        ("Error sending email to alice@example.org: connection refused" +:+ LF) ∈ stdout w' ∧
        last (stdout w') = Some ("Not enough data to compare." +:+ LF) ∧
        is_Some (files w' !! DATABASE_FILE_TEMPLATE_format "bob").
Proof.
  assert (ask (smtp Sample.undelivered)
              (Message SUBJECT (environ Sample.undelivered !! "SENDER_EMAIL")
                       "alice@example.org" "Hi,")
          = (Some "connection refused",
             Sample.always (Q := message) (Some "connection refused"))) as Hfail
    by reflexivity.
  split; [exact Hfail|]. split.
  - exact (delivery_failure_is_contained "alice@example.org" SUBJECT "Hi,"
             Sample.undelivered _ _ Hfail).
  - eexists. split; [vm_compute; reflexivity|]. split; [|split].
    + refine (bool_decide_unpack _ _). vm_compute. exact I.
    + vm_compute. reflexivity.
    + refine (bool_decide_unpack _ _). vm_compute. exact I.
Defined.
End DeliveryClaims.


(** * Further properties of the script *)

(** ** Files and tables *)

Section Files.
Implicit Types (tb : list song_row) (r : song_row) (d : string)
               (ts : list Track.t) (t : Track.t) (w : world).

Lemma string_length_app (s u : string) :
  String.length (s +:+ u) = (String.length s + String.length u)%nat.
Proof. induction s as [|a s IH]; [done|]. rewrite app_cons. simpl. by rewrite IH. Qed.

Lemma string_app_inj_r (s t u : string) : s +:+ u = t +:+ u → s = t.
Proof.
  revert t. induction s as [|a s IH]; intros [|b t] Heq; [done| | |].
  - apply (f_equal String.length) in Heq.
    rewrite app_empty_l, app_cons in Heq. simpl in Heq.
    rewrite string_length_app in Heq. lia.
  - apply (f_equal String.length) in Heq.
    rewrite app_empty_l, app_cons in Heq. simpl in Heq.
    rewrite string_length_app in Heq. lia.
  - rewrite !app_cons in Heq. injection Heq as -> Heq. f_equal. by apply IH.
Qed.

(** X1.  Two users never share a file: the name made from the template
    determines the user id. *)
Theorem db_file_injective (user1 user2 : string)
    (Hsame : DATABASE_FILE_TEMPLATE_format user1 = DATABASE_FILE_TEMPLATE_format user2) :
  user1 = user2.
Proof.
  unfold DATABASE_FILE_TEMPLATE_format in Hsame.
  apply (inj (String.app "liked_songs_")) in Hsame.
  by apply string_app_inj_r in Hsame.
Qed.

Lemma db_file_injective_witness :
  DATABASE_FILE_TEMPLATE_format "alice" = DATABASE_FILE_TEMPLATE_format "alice" ∧
  "alice" = "alice".
Proof.
  assert (DATABASE_FILE_TEMPLATE_format "alice" = DATABASE_FILE_TEMPLATE_format "alice")
    as Hsame by reflexivity.
  split; [exact Hsame|]. exact (db_file_injective "alice" "alice" Hsame).
Defined.


Lemma ids_insert_or_replace r tb :
  track_id <$> tb ⊆ track_id <$> insert_or_replace r tb.
Proof.
  intros i (x & -> & Hx)%list_elem_of_fmap.
  destruct (decide (track_id x = track_id r)) as [Heq|Hne].
  - rewrite Heq. apply list_elem_of_fmap_2, elem_of_insert_or_replace. by left.
  - apply list_elem_of_fmap_2, elem_of_insert_or_replace. by right.
Qed.

Lemma ids_insert_tracks d ts tb :
  track_id <$> tb ⊆ track_id <$> insert_tracks d ts tb.
Proof.
  revert tb. induction ts as [|t ts IH]; intros tb; simpl; [done|].
  etrans; [apply ids_insert_or_replace|apply IH].
Qed.

(** X3.  A save deletes nothing it does not replace: the rows of tracks
    that are not in the fetch stay as they are, in their order, and every
    track id the table had is still in it. *)
Theorem save_keeps_other_tracks d ts tb :
  filter (λ r, track_id r ∉ Track.id <$> ts) (insert_tracks d ts tb) =
    filter (λ r, track_id r ∉ Track.id <$> ts) tb ∧
  track_id <$> tb ⊆ track_id <$> insert_tracks d ts tb.
Proof.
  split; [|apply ids_insert_tracks].
  rewrite insert_tracks_last_rows, filter_app, list_filter_filter.
  rewrite (filter_drops_all _ (last_rows d ts)).
  - rewrite app_nil_r. apply list_filter_iff. tauto.
  - intros r Hr Hnot. apply Hnot, (last_rows_ids d). by apply list_elem_of_fmap_2.
Qed.

Lemma last_rows_last d ts1 t ts2 :
  Track.id t ∉ Track.id <$> ts2 → row_of d t ∈ last_rows d (ts1 ++ t :: ts2).
Proof.
  intros Hlast. induction ts1 as [|t1 ts1 IH]; simpl.
  - rewrite decide_False by done. left.
  - apply elem_of_app. by right.
Qed.

(** X4.  When a fetch lists a track id more than once, the row that is
    stored holds the values of its last occurrence, and it is the only
    row with that id. *)
Theorem save_last_duplicate_wins d ts1 t ts2 tb
    (Hlast : Track.id t ∉ Track.id <$> ts2) :
  row_of d t ∈ insert_tracks d (ts1 ++ t :: ts2) tb ∧
  ∀ r, r ∈ insert_tracks d (ts1 ++ t :: ts2) tb → track_id r = Track.id t →
       r = row_of d t.
Proof.
  pose proof (last_rows_last d ts1 t ts2 Hlast) as Hin.
  rewrite insert_tracks_last_rows. split; [apply elem_of_app; by right|].
  intros r [Hr|Hr]%elem_of_app Hid.
  - apply list_elem_of_filter in Hr as [Hnot _]. exfalso. apply Hnot.
    rewrite Hid, fmap_app, fmap_cons. apply elem_of_app. right. left.
  - eapply NoDup_fmap_eq; [apply (last_rows_primary_key d (ts1 ++ t :: ts2))|done|done|done].
Qed.

Lemma save_last_duplicate_wins_witness :
  (Track.id (Track.mk "B" "Beta (Remastered)" "Bob" "2024-01-02T09:00:00Z")
     ∉ Track.id <$> [Sample.tC]) ∧
  (row_of Sample.d2 (Track.mk "B" "Beta (Remastered)" "Bob" "2024-01-02T09:00:00Z")
     ∈ insert_tracks Sample.d2
         ([Sample.tB] ++ Track.mk "B" "Beta (Remastered)" "Bob" "2024-01-02T09:00:00Z"
                         :: [Sample.tC]) Sample.day1 ∧
   ∀ r, r ∈ insert_tracks Sample.d2
              ([Sample.tB] ++ Track.mk "B" "Beta (Remastered)" "Bob" "2024-01-02T09:00:00Z"
                              :: [Sample.tC]) Sample.day1 →
        track_id r = Track.id (Track.mk "B" "Beta (Remastered)" "Bob" "2024-01-02T09:00:00Z") →
        r = row_of Sample.d2 (Track.mk "B" "Beta (Remastered)" "Bob" "2024-01-02T09:00:00Z")).
Proof.
  assert (Track.id (Track.mk "B" "Beta (Remastered)" "Bob" "2024-01-02T09:00:00Z")
            ∉ Track.id <$> [Sample.tC]) as Hlast
    by (refine (bool_decide_unpack _ _); vm_compute; exact I).
  split; [exact Hlast|].
  exact (save_last_duplicate_wins Sample.d2 [Sample.tB] _ [Sample.tC] Sample.day1 Hlast).
Defined.
End Files.

(** ** The dates and the lists of the diff *)

Section Dates.
Implicit Types (tb : list song_row) (r : song_row) (d : string)
               (ts : list Track.t) (w : world).

Global Instance date_desc_trans : Transitive date_desc.
Proof. intros x y z Hxy Hyz. unfold date_desc in *. by etrans. Qed.

(** X5.  When the query gives two dates they are the two latest of the
    table: distinct, the later one first, and every row is under the first
    or under a date no later than the second. *)
Theorem select_dates_are_the_latest tb latest previous
    (Hd : select_dates tb = [latest; previous]) :
  latest ≠ previous ∧ (previous ≤ latest)%string ∧
  latest ∈ fetch_date <$> tb ∧ previous ∈ fetch_date <$> tb ∧
  ∀ r, r ∈ tb → fetch_date r = latest ∨ (fetch_date r ≤ previous)%string.
Proof.
  pose proof (select_dates_NoDup tb) as Hnd.
  pose proof (select_dates_elem tb) as Hin.
  rewrite Hd in Hnd, Hin.
  apply NoDup_cons in Hnd as [Hne _].
  unfold select_dates in Hd.
  pose proof (StronglySorted_merge_sort date_desc (remove_dups (fetch_date <$> tb)))
    as Hsorted.
  pose proof (sorted_dates_elem tb) as Helem.
  destruct (merge_sort date_desc (remove_dups (fetch_date <$> tb)))
    as [|x [|y rest]]; [done|done|].
  simpl in Hd. injection Hd as -> ->.
  apply StronglySorted_inv in Hsorted as [Hrest Hx].
  apply StronglySorted_inv in Hrest as [_ Hy].
  split; [intros ->; apply Hne; left|].
  split; [by apply Forall_cons in Hx as [Hx _]|].
  split; [apply Hin; left|]. split; [apply Hin; right; left|].
  intros r Hr.
  assert (fetch_date r ∈ latest :: previous :: rest) as Hd
    by (apply Helem; by apply list_elem_of_fmap_2).
  apply elem_of_cons in Hd as [Hd|Hd]; [by left|]. right.
  apply elem_of_cons in Hd as [->|Hd]; [done|].
  rewrite Forall_forall in Hy. by apply Hy.
Qed.

Lemma select_dates_are_the_latest_witness :
  select_dates Sample.day2 = [Sample.d2; Sample.d1] ∧
  (Sample.d2 ≠ Sample.d1 ∧ (Sample.d1 ≤ Sample.d2)%string ∧
   Sample.d2 ∈ fetch_date <$> Sample.day2 ∧ Sample.d1 ∈ fetch_date <$> Sample.day2 ∧
   ∀ r, r ∈ Sample.day2 → fetch_date r = Sample.d2 ∨ (fetch_date r ≤ Sample.d1)%string).
Proof.
  assert (select_dates Sample.day2 = [Sample.d2; Sample.d1]) as Hd
    by (vm_compute; reflexivity).
  split; [exact Hd|].
  exact (select_dates_are_the_latest Sample.day2 Sample.d2 Sample.d1 Hd).
Defined.

Lemma reachable_day2 : reachable Sample.day2.
Proof. apply reachable_saved, reachable_saved, reachable_created. Qed.

(** X6.  On a table the script has built (created empty, then only
    saved to), as soon as there are two dates to compare, the removed list
    is every row of the previous date and the added list is every row of
    the latest date, and neither list is empty: a track that is in both
    fetches is listed as added. *)
Theorem diff_lists_on_script_tables tb latest previous
    (Hreach : reachable tb)
    (Hd : select_dates tb = [latest; previous]) :
  select_exclusive tb previous latest =
    (λ r, (track_name r, artist_name r)) <$> filter (λ r, fetch_date r = previous) tb ∧
  select_exclusive tb latest previous =
    (λ r, (track_name r, artist_name r)) <$> filter (λ r, fetch_date r = latest) tb ∧
  select_exclusive tb previous latest ≠ [] ∧
  select_exclusive tb latest previous ≠ [].
Proof. by apply diff_lists_whole_dates. Qed.

Lemma diff_lists_on_script_tables_witness :
  reachable Sample.day2 ∧
  select_dates Sample.day2 = [Sample.d2; Sample.d1] ∧
  (select_exclusive Sample.day2 Sample.d1 Sample.d2 =
     (λ r, (track_name r, artist_name r)) <$>
       filter (λ r, fetch_date r = Sample.d1) Sample.day2 ∧
   select_exclusive Sample.day2 Sample.d2 Sample.d1 =
     (λ r, (track_name r, artist_name r)) <$>
       filter (λ r, fetch_date r = Sample.d2) Sample.day2 ∧
   select_exclusive Sample.day2 Sample.d1 Sample.d2 ≠ [] ∧
   select_exclusive Sample.day2 Sample.d2 Sample.d1 ≠ []).
Proof.
  assert (select_dates Sample.day2 = [Sample.d2; Sample.d1]) as Hd
    by (vm_compute; reflexivity).
  split; [exact reachable_day2|]. split; [exact Hd|].
  exact (diff_lists_on_script_tables Sample.day2 Sample.d2 Sample.d1 reachable_day2 Hd).
Defined.

Lemma all_saved_one_date d ts tb :
  (∀ r, r ∈ tb → track_id r ∈ Track.id <$> ts) →
  ∀ r, r ∈ insert_tracks d ts tb → fetch_date r = d.
Proof.
  intros Hall r Hr. apply (saved_row_date d ts tb r Hr).
  rewrite insert_tracks_last_rows in Hr.
  apply elem_of_app in Hr as [Hr|Hr].
  - apply list_elem_of_filter in Hr as [_ Hr]. by apply Hall.
  - apply (last_rows_ids d). by apply list_elem_of_fmap_2.
Qed.

Lemma compare_tracks_one_date conn email w tb :
  files w !! conn = Some tb →
  (∀ r1 r2, r1 ∈ tb → r2 ∈ tb → fetch_date r1 = fetch_date r2) →
  compare_tracks conn email w =
  Returns () (set_stdout (stdout w ++ ["Not enough data to compare." +:+ LF]) w).
Proof.
  intros Htb Hone. unfold compare_tracks, with_table. rewrite Htb.
  pose proof (select_dates_short tb Hone) as Hshort.
  destruct (select_dates tb) as [|a [|b [|c l]]]; try reflexivity.
  by destruct (Hshort a b).
Qed.

(** X7.  When every track of the table is in the fetch that is saved,
    that is when nothing was unliked, the save leaves all rows under one
    date and the comparison that follows finds not enough data: no mail is
    sent, whatever new tracks the fetch has brought. *)
Theorem additions_alone_send_nothing conn email ts w tb
    (Htb : files w !! conn = Some tb)
    (Hall : ∀ r, r ∈ tb → track_id r ∈ Track.id <$> ts) :
  ∃ w1 w2,
    save_tracks_to_db conn ts w = Returns () w1 ∧
    files w1 !! conn = Some (insert_tracks (ask (clock w) ()).1 ts tb) ∧
    compare_tracks conn email w1 = Returns () w2 ∧
    mail_log w2 = mail_log w ∧
    last (stdout w2) = Some ("Not enough data to compare." +:+ LF).
Proof.
  eexists _, _. split; [by apply save_tracks_to_db_returns|].
  split; [apply lookup_insert_eq|]. split.
  - apply compare_tracks_one_date with (tb := insert_tracks (ask (clock w) ()).1 ts tb).
    + apply lookup_insert_eq.
    + intros r1 r2 H1 H2.
      rewrite (all_saved_one_date _ ts tb Hall r1 H1).
      by rewrite (all_saved_one_date _ ts tb Hall r2 H2).
  - split; [done|]. simpl. apply last_snoc.
Qed.

Lemma additions_alone_send_nothing_witness :
  files Sample.first_day !! Sample.alice_db = Some Sample.day1 ∧
  (∀ r, r ∈ Sample.day1 →
        track_id r ∈ Track.id <$> [Sample.tA; Sample.tB; Sample.tC; Sample.tD]) ∧
  ∃ w1 w2,
    save_tracks_to_db Sample.alice_db [Sample.tA; Sample.tB; Sample.tC; Sample.tD]
      Sample.first_day = Returns () w1 ∧
    files w1 !! Sample.alice_db =
      Some (insert_tracks (ask (clock Sample.first_day) ()).1
              [Sample.tA; Sample.tB; Sample.tC; Sample.tD] Sample.day1) ∧
    compare_tracks Sample.alice_db "alice@example.org" w1 = Returns () w2 ∧
    mail_log w2 = mail_log Sample.first_day ∧
    last (stdout w2) = Some ("Not enough data to compare." +:+ LF).
Proof.
  assert (files Sample.first_day !! Sample.alice_db = Some Sample.day1) as Htb
    by (vm_compute; reflexivity).
  assert (∀ r, r ∈ Sample.day1 →
               track_id r ∈ Track.id <$> [Sample.tA; Sample.tB; Sample.tC; Sample.tD])
    as Hall.
  { rewrite day1_rows. intros r Hr.
    repeat (apply elem_of_cons in Hr as [->|Hr]);
      [refine (bool_decide_unpack _ _); vm_compute; exact I ..|by apply elem_of_nil in Hr]. }
  split; [exact Htb|]. split; [exact Hall|].
  exact (additions_alone_send_nothing Sample.alice_db "alice@example.org"
           [Sample.tA; Sample.tB; Sample.tC; Sample.tD] Sample.first_day Sample.day1 Htb Hall).
Defined.
End Dates.

(** ** More on the paged fetch *)

Section FetchMore.
Implicit Types (w : world) (acc : list Track.t) (offset : Z) (fuel k : nat).

Lemma fetch_loop_never_ends fuel : ∀ acc offset tot w,
  (∀ k, ∃ ts, full_page (page_from (spotify w) offset k) ts) →
  fetch_loop fuel acc offset tot w = OutOfFuel.
Proof.
  induction fuel as [|fuel IH]; intros acc offset tot w Hfull; [done|].
  destruct (Hfull 0%nat) as [ts Hts]. simpl in Hts.
  destruct (fetch_loop_full fuel acc offset tot w ts Hts) as (w' & tot' & -> & Hsp & _).
  apply IH. intros k. rewrite Hsp. apply (Hfull (S k)).
Qed.

(** X8.  Only an empty page, a failure or a track without artists ends
    the fetch: against a service that answers every request with a page
    of well-formed items, no number of requests is enough, whatever total
    that service reports. *)
Theorem fetch_never_ends_without_empty_page w
    (Hfull : ∀ k, ∃ ts, full_page (page_at (spotify w) k) ts) :
  ∀ fuel, get_liked_songs fuel w = OutOfFuel.
Proof.
  intros fuel. unfold get_liked_songs, try_except, mbind, M_bind.
  by rewrite (fetch_loop_never_ends fuel [] 0 None w Hfull).
Qed.

Lemma endless_pages offset k :
  page_from (spotify Cases.endless) offset k = Page (Results 50 Sample.fifty).
Proof. revert offset. induction k as [|k IH]; intros offset; [done|]. apply IH. Qed.

Lemma fetch_never_ends_without_empty_page_witness :
  (∀ k, ∃ ts, full_page (page_at (spotify Cases.endless) k) ts) ∧
  ∀ fuel, get_liked_songs fuel Cases.endless = OutOfFuel.
Proof.
  assert (∀ k, ∃ ts, full_page (page_at (spotify Cases.endless) k) ts) as Hfull.
  { intros k. exists Sample.fifty_tracks. unfold page_at. rewrite endless_pages.
    exists (Results 50 Sample.fifty).
    split; [reflexivity|]. split; [vm_compute; discriminate|vm_compute; reflexivity]. }
  split; [exact Hfull|]. exact (fetch_never_ends_without_empty_page Cases.endless Hfull).
Defined.

Lemma mapM_track_of_item_none (its : list saved_item) item :
  item ∈ its → api_artists (item_track item) = [] → mapM track_of_item its = None.
Proof.
  intros Hin Hno. induction its as [|i its IH]; [by apply elem_of_nil in Hin|].
  apply elem_of_cons in Hin as [<-|Hin]; simpl.
  - unfold track_of_item. by rewrite Hno.
  - destruct (track_of_item i); [|done]. simpl. by rewrite IH.
Qed.

Lemma append_items_index_error acc its w :
  mapM track_of_item its = None →
  append_items acc its w = Raises "list index out of range" w.
Proof.
  revert acc. induction its as [|item its IH]; intros acc Hnone; [done|].
  simpl in *. destruct (track_of_item item) as [t|]; [|done].
  apply IH. simpl in Hnone. by destruct (mapM track_of_item its).
Qed.

Lemma fetch_loop_index_error fuel acc offset tot w res :
  (ask (spotify w) (50, offset)).1 = Page res →
  mapM track_of_item (items res) = None →
  ∃ w', fetch_loop (S fuel) acc offset tot w = Raises "list index out of range" w' ∧
        fetched_only w w'.
Proof.
  intros Hr Hnone. simpl.
  unfold mbind, M_bind, current_user_saved_tracks.
  destruct (ask (spotify w) (50, offset)) as [r s]. simpl in Hr. subst r.
  destruct (items res) as [|item its] eqn:Hits; [done|].
  destruct tot; cbn -[append_items];
    rewrite (append_items_index_error _ (item :: its)) by done;
    eexists; (split; [reflexivity|by repeat split]).
Qed.

(** X9.  A track without artists is as fatal as a failed request: when
    a page holds one, after any number of full pages, [get_liked_songs]
    returns nothing, prints the index error and leaves with status 1, the
    tracks fetched so far being lost. *)
Theorem track_without_artists_is_fatal w k fuel tss res item
    (Hfuel : (k < fuel)%nat) (Hlen : length tss = k)
    (Hfull : ∀ j ts, tss !! j = Some ts → full_page (page_at (spotify w) j) ts)
    (Hpage : page_at (spotify w) k = Page res)
    (Hitem : item ∈ items res)
    (Hnone : api_artists (item_track item) = []) :
  ∃ w', get_liked_songs fuel w = Exits 1 w' ∧ fetched_only w w' ∧
        last (stdout w') =
          Some ((LF +:+ "Error fetching tracks: " +:+ "list index out of range") +:+ LF).
Proof.
  destruct (fetch_loop_full_pages k (fuel - k) [] 0 None w tss Hlen Hfull)
    as (w1 & tot1 & Hskip & Hpages & Hfr).
  replace (k + (fuel - k))%nat with fuel in Hskip by lia.
  destruct (fuel - k)%nat as [|rest] eqn:Hrest; [lia|].
  unfold page_at in Hpage.
  specialize (Hpages 0%nat). rewrite Nat.add_0_r, Hpage in Hpages. simpl in Hpages.
  destruct (fetch_loop_index_error rest (concat tss) (0 + 50 * Z.of_nat k) tot1 w1 res Hpages)
    as (w2 & Hend & Hfr2); [by eapply mapM_track_of_item_none|].
  eexists. split; [apply get_liked_songs_exits; by rewrite Hskip|].
  split; [|simpl; apply last_snoc].
  destruct (fetched_only_trans _ _ _ Hfr Hfr2) as (?&?&?&?&?&?). by repeat split.
Qed.

Lemma track_without_artists_is_fatal_witness :
  (1 < 2)%nat ∧ length [Sample.fifty_tracks] = 1%nat ∧
  (∀ j ts, [Sample.fifty_tracks] !! j = Some ts →
           full_page (page_at (spotify Cases.artless) j) ts) ∧
  page_at (spotify Cases.artless) 1 =
    Page (Results 51 [SavedItem (ApiTrack "x" "Untitled" []) "2024-01-01T00:00:00Z"]) ∧
  SavedItem (ApiTrack "x" "Untitled" []) "2024-01-01T00:00:00Z"
    ∈ items (Results 51 [SavedItem (ApiTrack "x" "Untitled" []) "2024-01-01T00:00:00Z"]) ∧
  api_artists (item_track (SavedItem (ApiTrack "x" "Untitled" []) "2024-01-01T00:00:00Z")) = [] ∧
  ∃ w', get_liked_songs 2 Cases.artless = Exits 1 w' ∧ fetched_only Cases.artless w' ∧
        last (stdout w') =
          Some ((LF +:+ "Error fetching tracks: " +:+ "list index out of range") +:+ LF).
Proof.
  assert (1 < 2)%nat as Hfuel by lia.
  assert (length [Sample.fifty_tracks] = 1%nat) as Hlen by reflexivity.
  assert (∀ j ts, [Sample.fifty_tracks] !! j = Some ts →
                  full_page (page_at (spotify Cases.artless) j) ts) as Hfull.
  { intros [|j] ts Hj; [|done]. injection Hj as <-.
    exists (Results 51 Sample.fifty).
    split; [vm_compute; reflexivity|]. split; [vm_compute; discriminate|].
    vm_compute; reflexivity. }
  assert (page_at (spotify Cases.artless) 1 =
          Page (Results 51 [SavedItem (ApiTrack "x" "Untitled" []) "2024-01-01T00:00:00Z"]))
    as Hpage by (vm_compute; reflexivity).
  assert (SavedItem (ApiTrack "x" "Untitled" []) "2024-01-01T00:00:00Z"
            ∈ items (Results 51 [SavedItem (ApiTrack "x" "Untitled" []) "2024-01-01T00:00:00Z"]))
    as Hitem by (simpl; left).
  assert (api_artists (item_track (SavedItem (ApiTrack "x" "Untitled" [])
                                             "2024-01-01T00:00:00Z")) = [])
    as Hnone by reflexivity.
  split; [exact Hfuel|]. split; [exact Hlen|]. split; [exact Hfull|].
  split; [exact Hpage|]. split; [exact Hitem|]. split; [exact Hnone|].
  exact (track_without_artists_is_fatal Cases.artless 1 2 [Sample.fifty_tracks] _ _
           Hfuel Hlen Hfull Hpage Hitem Hnone).
Defined.
End FetchMore.

(** ** What a computation leaves alone *)

Section Frames.
Implicit Types (w : world) (R : world → world → Prop).

Lemma ends_in_mono {A} (P Q : world → Prop) (o : outcome A) :
  (∀ w, P w → Q w) → ends_in P o → ends_in Q o.
Proof. intros HPQ. destruct o; simpl; auto. Qed.

(** Sequencing, with a relation for each part and one for the whole. *)
Lemma ends_in_bind {A B} R1 R2 R3 (m : M A) (k : A → M B) w :
  ends_in (R1 w) (m w) →
  (∀ a w1, R1 w w1 → ends_in (R2 w1) (k a w1)) →
  (∀ w1, R1 w w1 → R3 w w1) →
  (∀ w1 w2, R1 w w1 → R2 w1 w2 → R3 w w2) →
  ends_in (R3 w) ((m ≫= k) w).
Proof.
  intros Hm Hk H13 H123. unfold mbind, M_bind.
  destruct (m w) as [a w1|e w1|c w1|]; simpl in *; auto.
  eapply ends_in_mono; [|by apply Hk]. intros w2. by apply H123.
Qed.

Lemma keeps_ret {A} R (a : A) : (∀ w, R w w) → keeps R (mret a).
Proof. intros Hrefl w. apply Hrefl. Qed.

Lemma keeps_bind {A B} R (m : M A) (k : A → M B) :
  (∀ w1 w2 w3, R w1 w2 → R w2 w3 → R w1 w3) →
  keeps R m → (∀ a, keeps R (k a)) → keeps R (m ≫= k).
Proof.
  intros Htrans Hm Hk w.
  apply (ends_in_bind R R R); [apply Hm|intros a w1 _; apply Hk|done|apply Htrans].
Qed.

Lemma keeps_try {A} R (body : M A) (handler : string → M A) :
  (∀ w1 w2 w3, R w1 w2 → R w2 w3 → R w1 w3) →
  keeps R body → (∀ e, keeps R (handler e)) → keeps R (try_except body handler).
Proof.
  intros Htrans Hb Hh w. unfold try_except. specialize (Hb w).
  destruct (body w) as [a w1|e w1|c w1|]; simpl in *; auto.
  eapply ends_in_mono; [|apply Hh]. intros w2. by apply Htrans.
Qed.

Lemma keeps_weaken {A} R R' (m : M A) :
  (∀ w w', R w w' → R' w w') → keeps R m → keeps R' m.
Proof. intros HRR Hm w. eapply ends_in_mono; [apply HRR|apply Hm]. Qed.

(** The relations at hand. *)
Lemma table_step_refl o : table_step o o.
Proof. by destruct o. Qed.

Lemma table_step_trans o1 o2 o3 : table_step o1 o2 → table_step o2 o3 → table_step o1 o3.
Proof.
  destruct o1 as [tb1|], o2 as [tb2|], o3 as [tb3|]; simpl; try done.
  - intros [Hs1 Hp1] [Hs2 Hp2]. split; [by etrans|auto].
  - intros Hp [_ Hp2]. auto.
Qed.

Lemma user_step_refl db w : user_step db w w.
Proof. repeat split. apply table_step_refl. Qed.

Lemma user_step_trans db w1 w2 w3 :
  user_step db w1 w2 → user_step db w2 w3 → user_step db w1 w3.
Proof.
  intros (He1 & Hu1 & Hf1 & Ht1) (He2 & Hu2 & Hf2 & Ht2).
  split; [congruence|]. split; [congruence|]. split.
  - intros f Hne. rewrite Hf2, Hf1; done.
  - by eapply table_step_trans.
Qed.

Lemma run_step_refl w : run_step w w.
Proof. repeat split. intros f. apply table_step_refl. Qed.

Lemma run_step_trans w1 w2 w3 : run_step w1 w2 → run_step w2 w3 → run_step w1 w3.
Proof.
  intros (He1 & Hu1 & Ht1) (He2 & Hu2 & Ht2).
  split; [congruence|]. split; [congruence|].
  intros f. by eapply table_step_trans.
Qed.

Lemma user_step_run_step db w w' : user_step db w w' → run_step w w'.
Proof.
  intros (He & Hu & Hf & Ht). split; [done|]. split; [done|].
  intros f. destruct (decide (f = db)) as [->|Hne]; [done|].
  rewrite Hf by done. apply table_step_refl.
Qed.

Lemma fetched_only_user_step db w w' : fetched_only w w' → user_step db w w'.
Proof.
  intros (He & Hf & Hu & _). split; [done|]. split; [done|].
  rewrite Hf. split; [done|apply table_step_refl].
Qed.

(** The fetch. *)
Lemma keeps_fetched_print_end s e : keeps fetched_only (print_end s e).
Proof. intros w. by repeat split. Qed.

Lemma keeps_fetched_request limit offset :
  keeps fetched_only (current_user_saved_tracks limit offset).
Proof.
  intros w. unfold current_user_saved_tracks.
  destruct (ask (spotify w) (limit, offset)) as [[res|e] s]; by repeat split.
Qed.

Lemma keeps_fetched_append_items acc its : keeps fetched_only (append_items acc its).
Proof.
  revert acc. induction its as [|item its IH]; intros acc w; simpl.
  - apply fetched_only_refl.
  - destruct (track_of_item item); [apply IH|apply fetched_only_refl].
Qed.

Lemma keeps_fetched_loop fuel : ∀ acc offset tot,
  keeps fetched_only (fetch_loop fuel acc offset tot).
Proof.
  induction fuel as [|fuel IH]; intros acc offset tot; simpl; [done|].
  apply keeps_bind; [apply fetched_only_trans|apply keeps_fetched_request|]. intros res.
  apply keeps_bind; [apply fetched_only_trans| |].
  - destruct tot; [apply keeps_ret, fetched_only_refl|].
    apply keeps_bind; [apply fetched_only_trans|apply keeps_fetched_print_end|].
    intros _. apply keeps_ret, fetched_only_refl.
  - intros total'. destruct (items res); [apply keeps_ret, fetched_only_refl|].
    apply keeps_bind; [apply fetched_only_trans|apply keeps_fetched_append_items|].
    intros tracks'.
    apply keeps_bind; [apply fetched_only_trans|apply keeps_fetched_print_end|].
    intros _. apply IH.
Qed.

Lemma keeps_fetched_get_liked_songs fuel : keeps fetched_only (get_liked_songs fuel).
Proof.
  unfold get_liked_songs. apply keeps_try; [apply fetched_only_trans| |].
  - apply keeps_bind; [apply fetched_only_trans|apply keeps_fetched_loop|]. intros tracks.
    apply keeps_bind; [apply fetched_only_trans|apply keeps_fetched_print_end|].
    intros _. apply keeps_ret, fetched_only_refl.
  - intros e. apply keeps_bind; [apply fetched_only_trans|apply keeps_fetched_print_end|].
    intros _ w. apply fetched_only_refl.
Qed.
End Frames.

(** ** The turn of one user *)

Section Turn.
Implicit Types (w : world) (db conn email : string) (ts : list Track.t).

Lemma quiet_step_refl db w : quiet_step db w w.
Proof. split; [apply user_step_refl|done]. Qed.

Lemma quiet_step_trans db w1 w2 w3 :
  quiet_step db w1 w2 → quiet_step db w2 w3 → quiet_step db w1 w3.
Proof.
  intros (H1 & Hl1 & Hs1) (H2 & Hl2 & Hs2).
  split; [by eapply user_step_trans|]. split; congruence.
Qed.

Lemma fetched_only_quiet_step db w w' : fetched_only w w' → quiet_step db w w'.
Proof.
  intros Hf. split; [by apply fetched_only_user_step|].
  destruct Hf as (_ & _ & _ & Hs & Hl & _). done.
Qed.

Lemma keeps_quiet_print db s : keeps (quiet_step db) (print s).
Proof. intros w. apply fetched_only_quiet_step. by repeat split. Qed.

Lemma keeps_quiet_setup user_id :
  keeps (quiet_step (DATABASE_FILE_TEMPLATE_format user_id))
        (setup_user_songs_database user_id).
Proof.
  intros w. unfold setup_user_songs_database. simpl.
  split; [|done]. split; [done|]. split; [done|].
  unfold create_table_if_not_exists.
  destruct (files w !! DATABASE_FILE_TEMPLATE_format user_id) as [tb|] eqn:Hf; simpl.
  - rewrite Hf. split; [done|]. by split.
  - split; [intros f Hne; by apply lookup_insert_ne|].
    rewrite lookup_insert_eq. apply NoDup_nil_2.
Qed.

Lemma keeps_quiet_insert conn r :
  keeps (quiet_step conn)
        (with_table conn (λ tb, set_table conn (insert_or_replace r tb))).
Proof.
  intros w. unfold with_table, set_table.
  destruct (files w !! conn) as [tb|] eqn:Hf; simpl; [|apply quiet_step_refl].
  split; [|done]. split; [done|]. split; [done|]. simpl. split.
  - intros f Hne. by apply lookup_insert_ne.
  - rewrite Hf, lookup_insert_eq. simpl.
    split; [apply ids_insert_or_replace|apply primary_key_insert_or_replace].
Qed.

Lemma keeps_quiet_execute_inserts conn d ts : keeps (quiet_step conn) (execute_inserts conn d ts).
Proof.
  induction ts as [|t ts IH]; simpl; [apply keeps_ret, quiet_step_refl|].
  apply keeps_bind; [apply quiet_step_trans|apply keeps_quiet_insert|by intros _].
Qed.

Lemma keeps_quiet_save conn ts : keeps (quiet_step conn) (save_tracks_to_db conn ts).
Proof.
  intros w. unfold save_tracks_to_db. destruct (ask (clock w) ()) as [d c].
  eapply ends_in_mono; [|apply keeps_bind;
    [apply (quiet_step_trans conn)|apply keeps_quiet_execute_inserts|
     intros _; apply keeps_quiet_print]].
  intros w' ((He & Hu & Hf & Ht) & Hl & Hs). by repeat split.
Qed.

Lemma compare_tracks_returns conn email w tb :
  files w !! conn = Some tb →
  ∃ w', compare_tracks conn email w = Returns () w' ∧
        environ w' = environ w ∧ users w' = users w ∧ files w' = files w ∧
        spotify w' = spotify w ∧ clock w' = clock w ∧
        mail_step 1 (λ m, To m = email ∧ Subject m = SUBJECT) w w'.
Proof.
  intros Htb. unfold compare_tracks, with_table. rewrite Htb.
  assert (∀ w0, mail_step 1 (λ m, To m = email ∧ Subject m = SUBJECT) w0
                  (set_stdout (stdout w0 ++ ["Not enough data to compare." +:+ LF]) w0))
    as Hnone
    by (intros w0; exists []; rewrite app_nil_r; split; [done|split; [simpl; lia|constructor]]).
  destruct (select_dates tb) as [|latest [|previous [|x l]]];
    try (eexists; split; [reflexivity|]; by repeat split).
  unfold mbind, M_bind. simpl. rewrite send_email_returns.
  eexists. split; [reflexivity|]. repeat split.
  simpl. eexists [_]. split; [reflexivity|]. split; [simpl; lia|].
  apply Forall_singleton. done.
Qed.

Lemma compare_tracks_raises conn email w :
  files w !! conn = None →
  compare_tracks conn email w = Raises "no such table: liked_songs" w.
Proof. intros Hf. unfold compare_tracks, with_table. by rewrite Hf. Qed.

Lemma compare_tracks_frame conn email w :
  ends_in (λ w', environ w' = environ w ∧ users w' = users w ∧ files w' = files w ∧
                 spotify w' = spotify w ∧ clock w' = clock w ∧
                 mail_step 1 (λ m, To m = email ∧ Subject m = SUBJECT) w w')
          (compare_tracks conn email w).
Proof.
  destruct (files w !! conn) as [tb|] eqn:Hf.
  - destruct (compare_tracks_returns conn email w tb Hf) as (w' & -> & H). exact H.
  - rewrite compare_tracks_raises by done. simpl. repeat split.
    exists []. rewrite app_nil_r. split; [done|split; [simpl; lia|constructor]].
Qed.

(** X11.  [compare_tracks] only reads the store: however it ends, the
    files, the registry, the environment, the service and the clock are as
    before, and at most one message has gone to the transport, addressed
    to the user and under the fixed subject. *)
Theorem compare_tracks_reads_only conn email w :
  ends_in (λ w', environ w' = environ w ∧ users w' = users w ∧ files w' = files w ∧
                 spotify w' = spotify w ∧ clock w' = clock w ∧
                 mail_step 1 (λ m, To m = email ∧ Subject m = SUBJECT) w w')
          (compare_tracks conn email w).
Proof. apply compare_tracks_frame. Qed.

(** X10.  The fetch touches nothing but the service and the console:
    however it ends, and whatever the service answers, the files, the
    registry, the environment, the transport and the clock are as before. *)
Theorem fetch_changes_nothing fuel w :
  ends_in (λ w', environ w' = environ w ∧ files w' = files w ∧ users w' = users w ∧
                 smtp w' = smtp w ∧ mail_log w' = mail_log w ∧ clock w' = clock w)
          (get_liked_songs fuel w).
Proof. apply keeps_fetched_get_liked_songs. Qed.

Lemma process_user_quiet_then_compare fuel user_id email :
  process_user fuel (user_id, email) =
  ((print ("Processing user " +:+ user_id +:+ "...");;
    user_conn ← setup_user_songs_database user_id;
    print (LF +:+ "Fetching current liked songs...");;
    current_tracks ← get_liked_songs fuel;
    save_tracks_to_db user_conn current_tracks;;
    compare_tracks user_conn email) : M ()).
Proof. reflexivity. Qed.

Lemma keeps_user_step_compare db conn email : keeps (user_step db) (compare_tracks conn email).
Proof.
  intros w. eapply ends_in_mono; [|apply compare_tracks_frame].
  intros w' (He & Hu & Hf & _). split; [done|]. split; [done|].
  rewrite Hf. split; [done|apply table_step_refl].
Qed.

Lemma quiet_user_step db w w' : quiet_step db w w' → user_step db w w'.
Proof. by intros [H _]. Qed.

Lemma keeps_user_step_process_user fuel user_id email :
  keeps (user_step (DATABASE_FILE_TEMPLATE_format user_id))
        (process_user fuel (user_id, email)).
Proof.
  unfold process_user.
  apply keeps_bind; [apply user_step_trans| |intros _].
  { eapply keeps_weaken; [apply quiet_user_step|apply keeps_quiet_print]. }
  intros w. unfold mbind at 1, M_bind at 1. unfold setup_user_songs_database at 1.
  eapply ends_in_mono;
    [intros w'; apply (user_step_trans _ w
       (set_files (create_table_if_not_exists (DATABASE_FILE_TEMPLATE_format user_id)
                                              (files w)) w));
     apply quiet_user_step, (keeps_quiet_setup user_id w)|].
  apply keeps_bind; [apply user_step_trans| |intros _].
  { eapply keeps_weaken; [apply quiet_user_step|apply keeps_quiet_print]. }
  apply keeps_bind; [apply user_step_trans| |intros current_tracks].
  { eapply keeps_weaken; [apply fetched_only_user_step|apply keeps_fetched_get_liked_songs]. }
  apply keeps_bind; [apply user_step_trans| |intros _].
  { eapply keeps_weaken; [apply quiet_user_step|apply keeps_quiet_save]. }
  apply keeps_user_step_compare.
Qed.

End Turn.

(** ** Whole runs *)

Section Runs.
Implicit Types (w : world) (fuel : nat) (us : list (string * string)).

Lemma keeps_run_step_for_users fuel us : keeps run_step (for_users fuel us).
Proof.
  induction us as [|[user_id email] rest IH]; simpl; [apply keeps_ret, run_step_refl|].
  apply keeps_bind; [apply run_step_trans| |by intros _].
  eapply keeps_weaken; [apply user_step_run_step|apply keeps_user_step_process_user].
Qed.

Lemma keeps_run_step_main fuel : keeps run_step (main fuel).
Proof. intros w. apply keeps_run_step_for_users. Qed.

(** X13.  The primary key is an invariant of whole runs: if no file has
    two rows with one track id before a run, none has after it, however
    the run ends, and that includes the files the run creates. *)
Theorem run_keeps_primary_keys fuel w
    (Hpk : ∀ f tb, files w !! f = Some tb → primary_key tb) :
  ends_in (λ w', ∀ f tb, files w' !! f = Some tb → primary_key tb) (main fuel w).
Proof.
  eapply ends_in_mono; [|apply keeps_run_step_main].
  intros w' (_ & _ & Hstep) f tb' Hf'. specialize (Hstep f). rewrite Hf' in Hstep.
  destruct (files w !! f) as [tb|] eqn:Hf; simpl in Hstep; [|done].
  destruct Hstep as [_ Hkeep]. by eapply Hkeep, Hpk.
Qed.

Lemma sample_primary_keys f tb :
  files Sample.second_day !! f = Some tb → primary_key tb.
Proof.
  unfold Sample.second_day, Sample.base. simpl.
  intros [_ <-]%lookup_singleton_Some.
  apply reachable_primary_key, reachable_day2.
Qed.

Lemma run_keeps_primary_keys_witness :
  (∀ f tb, files Sample.second_day !! f = Some tb → primary_key tb) ∧
  ends_in (λ w', ∀ f tb, files w' !! f = Some tb → primary_key tb)
          (main 1 Sample.second_day).
Proof.
  split; [exact sample_primary_keys|].
  exact (run_keeps_primary_keys 1 Sample.second_day sample_primary_keys).
Defined.

(** X14.  A run deletes nothing: a file that holds a table before the
    run holds one after it, with every track id it had, however the run
    ends; nor does the run change the registry or the environment. *)
Theorem run_never_drops_a_track fuel w f tb
    (Hf : files w !! f = Some tb) :
  ends_in (λ w', environ w' = environ w ∧ users w' = users w ∧
                 ∃ tb', files w' !! f = Some tb' ∧ track_id <$> tb ⊆ track_id <$> tb')
          (main fuel w).
Proof.
  eapply ends_in_mono; [|apply keeps_run_step_main].
  intros w' (He & Hu & Hstep). split; [done|]. split; [done|].
  specialize (Hstep f). rewrite Hf in Hstep.
  destruct (files w' !! f) as [tb'|]; simpl in Hstep; [|done].
  exists tb'. by destruct Hstep.
Qed.

Lemma run_never_drops_a_track_witness :
  files Sample.second_day !! Sample.alice_db = Some Sample.day2 ∧
  ends_in (λ w', environ w' = environ Sample.second_day ∧
                 users w' = users Sample.second_day ∧
                 ∃ tb', files w' !! Sample.alice_db = Some tb' ∧
                        track_id <$> Sample.day2 ⊆ track_id <$> tb')
          (main 1 Sample.second_day).
Proof.
  assert (files Sample.second_day !! Sample.alice_db = Some Sample.day2) as Hf
    by (vm_compute; reflexivity).
  split; [exact Hf|].
  exact (run_never_drops_a_track 1 Sample.second_day Sample.alice_db Sample.day2 Hf).
Defined.



End Runs.

(** ** Mails, endings and fuel *)

Section Mails.
Implicit Types (w : world) (fuel : nat) (us : list (string * string)).








End Mails.

Section Endings.
Implicit Types (w : world) (fuel : nat) (us : list (string * string)).
















End Endings.

(** ** A whole turn, and the start of the script *)

Section WholeTurn.
Implicit Types (w : world) (fuel k : nat) (tss : list (list Track.t)).

Lemma get_liked_songs_pages w k fuel tss :
  (k < fuel)%nat → length tss = k →
  (∀ j ts, tss !! j = Some ts → full_page (page_at (spotify w) j) ts) →
  empty_page (page_at (spotify w) k) →
  ∃ w', get_liked_songs fuel w = Returns (concat tss) w' ∧ fetched_only w w'.
Proof.
  intros Hfuel Hlen Hfull (n & Hn).
  destruct (fetch_loop_full_pages k (fuel - k) [] 0 None w tss Hlen Hfull)
    as (w1 & tot1 & Hskip & Hpages & Hfr).
  replace (k + (fuel - k))%nat with fuel in Hskip by lia.
  destruct (fuel - k)%nat as [|rest] eqn:Hrest; [lia|].
  unfold page_at in Hn.
  specialize (Hpages 0%nat). rewrite Nat.add_0_r, Hn in Hpages. simpl in Hpages.
  destruct (fetch_loop_empty rest (concat tss) (0 + 50 * Z.of_nat k) tot1 w1 n Hpages)
    as (w2 & Hend & Hfr2).
  eexists. split.
  - apply get_liked_songs_returns. rewrite Hskip. exact Hend.
  - destruct (fetched_only_trans _ _ _ Hfr Hfr2) as (?&?&?&?&?&?). by repeat split.
Qed.

(** X19.  A turn in which nothing was unliked ends silently.  When the
    fetch goes through [k] full pages to an empty one and brings back
    every track the user's table holds (none, on a first run), the turn
    returns with the table holding the fetch under today's date on top of
    what it held, "Not enough data to compare." as its last line, and no
    message handed to the transport, whatever tracks are new. *)
Theorem turn_without_removals_is_silent fuel k tss user_id email w
    (Hfuel : (k < fuel)%nat) (Hlen : length tss = k)
    (Hfull : ∀ j ts, tss !! j = Some ts → full_page (page_at (spotify w) j) ts)
    (Hempty : empty_page (page_at (spotify w) k))
    (Hall : ∀ r, r ∈ default [] (files w !! DATABASE_FILE_TEMPLATE_format user_id) →
                 track_id r ∈ Track.id <$> concat tss) :
  ∃ w', process_user fuel (user_id, email) w = Returns () w' ∧
        files w' !! DATABASE_FILE_TEMPLATE_format user_id =
          Some (insert_tracks (ask (clock w) ()).1 (concat tss)
                  (default [] (files w !! DATABASE_FILE_TEMPLATE_format user_id))) ∧
        mail_log w' = mail_log w ∧
        last (stdout w') = Some ("Not enough data to compare." +:+ LF).
Proof.
  destruct (process_user_fetch fuel user_id email w)
    as (w1 & -> & Hfiles & _ & _ & Hsp & _ & Hlog & Hclock).
  set (db := DATABASE_FILE_TEMPLATE_format user_id) in *.
  set (tb := default [] (files w !! db)) in *.
  assert (files w1 !! db = Some tb) as Htb.
  { rewrite Hfiles. unfold create_table_if_not_exists, tb.
    destruct (files w !! db) eqn:Hf; [by rewrite Hf|by rewrite lookup_insert_eq]. }
  destruct (get_liked_songs_pages w1 k fuel tss) as (w2 & Hget & Hfr);
    [done|done|by rewrite Hsp|by rewrite Hsp|].
  destruct Hfr as (_ & Hf2 & _ & _ & Hl2 & Hc2).
  unfold mbind, M_bind. rewrite Hget.
  rewrite (save_tracks_to_db_returns db (concat tss) w2 tb) by (by rewrite Hf2).
  rewrite Hc2, Hclock.
  rewrite (compare_tracks_one_date db email _
             (insert_tracks (ask (clock w) ()).1 (concat tss) tb)).
  - eexists. split; [reflexivity|]. simpl. split; [apply lookup_insert_eq|].
    split; [congruence|]. apply last_snoc.
  - apply lookup_insert_eq.
  - intros r1 r2 H1 H2.
    rewrite (all_saved_one_date _ _ tb Hall r1 H1).
    by rewrite (all_saved_one_date _ _ tb Hall r2 H2).
Qed.

Lemma turn_without_removals_is_silent_witness :
  (1 < 2)%nat ∧ length [Sample.fifty_tracks] = 1%nat ∧
  (∀ j ts, [Sample.fifty_tracks] !! j = Some ts →
           full_page (page_at (spotify Sample.drifting) j) ts) ∧
  empty_page (page_at (spotify Sample.drifting) 1) ∧
  (∀ r, r ∈ default [] (files Sample.drifting !! DATABASE_FILE_TEMPLATE_format "alice") →
        track_id r ∈ Track.id <$> concat [Sample.fifty_tracks]) ∧
  ∃ w', process_user 2 ("alice", "alice@example.org") Sample.drifting = Returns () w' ∧
        files w' !! DATABASE_FILE_TEMPLATE_format "alice" =
          Some (insert_tracks (ask (clock Sample.drifting) ()).1 (concat [Sample.fifty_tracks])
                  (default [] (files Sample.drifting !! DATABASE_FILE_TEMPLATE_format "alice"))) ∧
        mail_log w' = mail_log Sample.drifting ∧
        last (stdout w') = Some ("Not enough data to compare." +:+ LF).
Proof.
  assert (1 < 2)%nat as Hfuel by lia.
  assert (length [Sample.fifty_tracks] = 1%nat) as Hlen by reflexivity.
  assert (∀ j ts, [Sample.fifty_tracks] !! j = Some ts →
                  full_page (page_at (spotify Sample.drifting) j) ts) as Hfull.
  { intros [|j] ts Hj; [|done]. injection Hj as <-.
    exists (Results 120 Sample.fifty).
    split; [vm_compute; reflexivity|]. split; [vm_compute; discriminate|].
    vm_compute; reflexivity. }
  assert (empty_page (page_at (spotify Sample.drifting) 1)) as Hempty
    by (exists 120; vm_compute; reflexivity).
  assert (∀ r, r ∈ default [] (files Sample.drifting !! DATABASE_FILE_TEMPLATE_format "alice") →
               track_id r ∈ Track.id <$> concat [Sample.fifty_tracks]) as Hall
    by (intros r Hr; by apply elem_of_nil in Hr).
  split; [exact Hfuel|]. split; [exact Hlen|]. split; [exact Hfull|].
  split; [exact Hempty|]. split; [exact Hall|].
  exact (turn_without_removals_is_silent 2 1 [Sample.fifty_tracks] "alice" "alice@example.org"
           Sample.drifting Hfuel Hlen Hfull Hempty Hall).
Defined.

End WholeTurn.
